(** * c-vec: a header-prefixed growable array (vec.h)

    Shallow embedding of the macros of [src/vec.h] and proofs about them.

    A vector is a variable [T *v].  When it is not [NULL] it points to the
    first element slot of one heap allocation that starts with a
    [vec__header_t] ([len], [cap]).  The macros are modelled as commands of
    a small state-and-error monad over
    - the value of the handle [*(vec)],
    - the heap of live allocations, and
    - [errno].

    Sizes are [size_t] values: integers modulo [2 ^ size_bits], with the
    wrap-around written out where the source does arithmetic on them.

    What the model fixes:
    - the allocator is an oracle: each call that may allocate takes the
      answer ([ok]) the allocator gives if it is asked; a block has the
      size in bytes that was requested, and [realloc] resizes in place;
    - a load or store outside the block it addresses, the use of a freed
      block and the address arithmetic that leaves a block are undefined
      behaviour ([Undef]);
    - a slot that has never been written has no value; copying it copies
      that;
    - [VEC_PANIC] and a failed [VEC_ASSERT] end the program (assertions
      are enabled). *)

From Stdlib Require Import ZArith Lia String.
From stdpp Require Import base option list gmap.

#[local] Open Scope Z_scope.

(** ** Platform constants *)

(** What the C implementation fixes: the width of [size_t], the two
    [sizeof]s that occur in the allocation sizes, and the value of [ENOMEM]
    from <errno.h>. *)
Class Abi := {
  size_bits : Z;
  sizeof_header : Z;
  sizeof_T : Z;
  ENOMEM : Z;
  size_bits_pos : 0 < size_bits;
  sizeof_header_pos : 0 < sizeof_header;
  sizeof_T_pos : 0 < sizeof_T
}.

(** [size_t] arithmetic. *)
Definition wrap `{Abi} (x : Z) : Z := x mod 2 ^ size_bits.

(** ** Memory *)

Definition ptr := positive.

(** One allocation: its size in bytes, the two header fields and the
    element slots that have been written ([elems !! i = None]: slot [i] is
    indeterminate or outside the block). *)
Record block (T : Type) := Block {
  blk_size : Z;
  hdr_len : Z;
  hdr_cap : Z;
  elems : gmap Z T
}.
Arguments Block {T} _ _ _ _.
Arguments blk_size {T} _.
Arguments hdr_len {T} _.
Arguments hdr_cap {T} _.
Arguments elems {T} _.

Record state (T : Type) := State {
  vec : option ptr;             (* the handle [*(vec)]; [None] is [NULL] *)
  heap : gmap ptr (block T);    (* live allocations *)
  errno : Z
}.
Arguments State {T} _ _ _.
Arguments vec {T} _.
Arguments heap {T} _.
Arguments errno {T} _.

(** How a macro invocation ends. *)
Inductive outcome (A : Type) : Type :=
| Ret (a : A)                     (* control reaches the end of the macro *)
| Panic (reason : string)         (* [VEC_PANIC]: message, [exit(EXIT_FAILURE)] *)
| AssertFail (reason : string)    (* [VEC_ASSERT] failed: [abort()] *)
| Undef.                          (* undefined behaviour *)
Arguments Ret {A} _.
Arguments Panic {A} _.
Arguments AssertFail {A} _.
Arguments Undef {A}.

(** A reference to an element slot, as returned by [vec_emplace]. *)
Inductive ref := NullRef | SlotRef (h : ptr) (i : Z).

Section Vec.
Context `{Abi} {T : Type}.

Definition M (A : Type) : Type := state T → outcome (A * state T).

Definition ret {A} (a : A) : M A := λ s, Ret (a, s).

Definition bind {A B} (c : M A) (k : A → M B) : M B := λ s,
  match c s with
  | Ret (a, s') => k a s'
  | Panic r => Panic r
  | AssertFail r => AssertFail r
  | Undef => Undef
  end.

Notation "x <- c ;; k" := (bind c (λ x, k))
  (at level 100, c at next level, right associativity).
Notation "c ;; k" := (bind c (λ _, k))
  (at level 100, right associativity).

(** *** Bounds of a block *)

(** Slot [i] of the element buffer lies inside a block of [sz] bytes. *)
Definition slot_in (sz i : Z) : Prop :=
  0 ≤ i ∧ sizeof_header + sizeof_T * (i + 1) ≤ sz.

(** The address [buf + i] is inside the block or one past its end: the
    pointers that pointer arithmetic may form. *)
Definition addr_in (sz i : Z) : Prop :=
  0 ≤ i ∧ sizeof_header + sizeof_T * i ≤ sz.

#[global] Instance slot_in_dec sz i : Decision (slot_in sz i).
Proof. unfold slot_in. apply _. Defined.
#[global] Instance addr_in_dec sz i : Decision (addr_in sz i).
Proof. unfold addr_in. apply _. Defined.

(** *** The allocator ([VEC_MALLOC], [VEC_REALLOC], [VEC_FREE])

    The allocator is an external collaborator.  Whether a request succeeds
    is an input of the model ([ok]); the storage it hands out is
    indeterminate (no slot written; the header fields are filled by the
    caller before they are read). *)

Definition VEC_MALLOC (ok : bool) (size : Z) : M (option ptr) := λ s,
  if ok then
    let h := fresh (dom (heap s)) in
    Ret (Some h, State (vec s) (<[h := Block size 0 0 ∅]> (heap s)) (errno s))
  else Ret (None, s).

(** [realloc] keeps the bytes up to the smaller of the two sizes.  The
    block is resized in place. *)
Definition resize (size : Z) (b : block T) : block T :=
  Block size (hdr_len b) (hdr_cap b)
        (filter (λ kv, slot_in size kv.1) (elems b)).

Definition VEC_REALLOC (ok : bool) (h : ptr) (size : Z) : M (option ptr) := λ s,
  match heap s !! h with
  | None => Undef
  | Some b =>
      if ok then
        Ret (Some h, State (vec s) (<[h := resize size b]> (heap s)) (errno s))
      else Ret (None, s)
  end.

Definition VEC_FREE (p : option ptr) : M unit := λ s,
  match p with
  | None => Ret (tt, s)
  | Some h =>
      match heap s !! h with
      | None => Undef
      | Some _ => Ret (tt, State (vec s) (delete h (heap s)) (errno s))
      end
  end.

(** *** Loads and stores *)

(** Access to a header field needs a live block that holds a header. *)
Definition header (h : ptr) : M (block T) := λ s,
  match heap s !! h with
  | Some b => if decide (sizeof_header ≤ blk_size b) then Ret (b, s) else Undef
  | None => Undef
  end.

Definition put_block (h : ptr) (b : block T) : M unit := λ s,
  Ret (tt, State (vec s) (<[h := b]> (heap s)) (errno s)).

Definition load_len (h : ptr) : M Z := b <- header h ;; ret (hdr_len b).
Definition load_cap (h : ptr) : M Z := b <- header h ;; ret (hdr_cap b).

Definition store_len (h : ptr) (v : Z) : M unit :=
  b <- header h ;; put_block h (Block (blk_size b) v (hdr_cap b) (elems b)).
Definition store_cap (h : ptr) (v : Z) : M unit :=
  b <- header h ;; put_block h (Block (blk_size b) (hdr_len b) v (elems b)).

(** [( *(vec))[i]] as an rvalue: the content of the slot, [None] when the
    slot has never been written. *)
Definition load_slot (h : ptr) (i : Z) : M (option T) := λ s,
  match heap s !! h with
  | Some b => if decide (slot_in (blk_size b) i) then Ret (elems b !! i, s) else Undef
  | None => Undef
  end.

(** [( *(vec))[i] = x], where [x] is the content of a slot: the slot holds
    [x] afterwards ([None]: it is as indeterminate as the slot that was
    copied). *)
Definition store_slot (h : ptr) (i : Z) (x : option T) : M unit := λ s,
  match heap s !! h with
  | Some b =>
      if decide (slot_in (blk_size b) i) then
        put_block h (Block (blk_size b) (hdr_len b) (hdr_cap b)
                           (partial_alter (λ _, x) i (elems b))) s
      else Undef
  | None => Undef
  end.

(** [*(vec) + i]. *)
Definition slot_addr (h : ptr) (i : Z) : M ref := λ s,
  match heap s !! h with
  | Some b => if decide (addr_in (blk_size b) i) then Ret (SlotRef h i, s) else Undef
  | None => Undef
  end.

Definition get_errno : M Z := λ s, Ret (errno s, s).
Definition set_errno (e : Z) : M unit := λ s, Ret (tt, State (vec s) (heap s) e).

Definition VEC_PANIC {A} (reason : string) : M A := λ _, Panic reason.

(** [VEC_ASSERT] is [assert]: with assertions enabled a false condition
    aborts the program. *)
Definition VEC_ASSERT (condition : bool) (reason : string) : M unit := λ s,
  if condition then Ret (tt, s) else AssertFail reason.

(** ** The macros *)

(** [#define vec_init(vec) *(vec) = NULL] *)
Definition vec_init : M unit := λ s, Ret (tt, State None (heap s) (errno s)).

(** [#define vec__has_header(vec) ( *(vec) != NULL)] *)
Definition vec__has_header : M bool := λ s,
  Ret (match vec s with Some _ => true | None => false end, s).

(** [#define vec__get_header(vec) (((vec__header_t* )*(vec)) - 1)],
    undefined when the handle is [NULL]. *)
Definition vec__get_header : M ptr := λ s,
  match vec s with
  | Some h => Ret (h, s)
  | None => Undef
  end.

(** [#define vec__set_header(vec, header) ( *(vec) = (void* )((header) + 1))] *)
Definition vec__set_header (h : ptr) : M unit := λ s,
  Ret (tt, State (Some h) (heap s) (errno s)).

(** [vec_len], [vec_cap] *)
Definition vec_len : M Z :=
  a <- vec__has_header ;;
  if a then h <- vec__get_header ;; load_len h else ret 0.

Definition vec_cap : M Z :=
  a <- vec__has_header ;;
  if a then h <- vec__get_header ;; load_cap h else ret 0.

(** [vec_deinit]: [VEC_FREE(vec__has_header(vec) ? vec__get_header(vec) : NULL)] *)
Definition vec_deinit : M unit :=
  a <- vec__has_header ;;
  p <- (if a then h <- vec__get_header ;; ret (Some h) else ret None) ;;
  VEC_FREE p.

(** The byte count of an allocation for [n] elements,
    [sizeof(vec__header_t) + sizeof( **(vec)) * n], in [size_t]. *)
Definition alloc_size (n : Z) : Z := wrap (sizeof_header + wrap (sizeof_T * n)).

(** [vec__grow_or_fail(vec, ...)]; [fail] is the block passed for [...],
    [ok] what the allocator answers if it is asked. *)
Definition vec__grow_or_fail (fail : M unit) (ok : bool) : M unit :=
  a <- vec__has_header ;;
  if negb a then
    r <- VEC_MALLOC ok (wrap (sizeof_header + sizeof_T)) ;;
    match r with
    | Some h =>
        vec__set_header h ;;
        store_cap h 1 ;;
        store_len h 1
    | None => fail
    end
  else
    h <- vec__get_header ;;
    l <- load_len h ;;
    c <- load_cap h ;;
    if bool_decide (l < c) then
      store_len h (wrap (l + 1))
    else
      let new_cap := wrap (c * 2) in
      r <- VEC_REALLOC ok h (alloc_size new_cap) ;;
      match r with
      | Some h' =>
          vec__set_header h' ;;
          store_cap h' new_cap ;;
          l' <- load_len h' ;;
          store_len h' (wrap (l' + 1))
      | None => fail
      end.

(** [vec_push] *)
Definition vec_push (value : T) (ok : bool) : M unit :=
  vec__grow_or_fail (VEC_PANIC "vec_push out of memory") ok ;;
  h <- vec__get_header ;;
  l <- load_len h ;;
  store_slot h (wrap (l - 1)) (Some value).

(** [vec_try_push]: the failure block stores [ENOMEM] into [errno], and
    the value is written when [errno] is not [ENOMEM] afterwards. *)
Definition vec_try_push (value : T) (ok : bool) : M unit :=
  vec__grow_or_fail (set_errno ENOMEM) ok ;;
  e <- get_errno ;;
  if bool_decide (e ≠ ENOMEM) then
    h <- vec__get_header ;;
    l <- load_len h ;;
    store_slot h (wrap (l - 1)) (Some value)
  else ret tt.

(** [vec_emplace]: the value of the statement expression is
    [*(vec) + vec__get_header(vec)->len - 1]. *)
Definition vec_emplace (ok : bool) : M ref :=
  vec__grow_or_fail (VEC_PANIC "vec_emplace out of memory") ok ;;
  h <- vec__get_header ;;
  l <- load_len h ;;
  slot_addr h l ;;
  slot_addr h (l - 1).

(** [vec_try_emplace].  The last line of the macro reads
    [(errno != ENOMEM : ( *(vec) + vec__get_header(vec)->len - 1) : NULL)],
    with [:] where the conditional operator has [?]; as it stands no use of
    the macro compiles.  The definition is the conditional expression. *)
Definition vec_try_emplace (ok : bool) : M ref :=
  vec__grow_or_fail (set_errno ENOMEM) ok ;;
  e <- get_errno ;;
  if bool_decide (e ≠ ENOMEM) then
    h <- vec__get_header ;;
    l <- load_len h ;;
    slot_addr h l ;;
    slot_addr h (l - 1)
  else ret NullRef.

(** [vec__reserve_or_fail(vec, capacity, ...)].  The argument is converted
    to [size_t] ([size_t _vec_capacity = (capacity)]). *)
Definition vec__reserve_or_fail (capacity : Z) (fail : M unit) (ok : bool) : M unit :=
  let _vec_capacity := wrap capacity in
  if bool_decide (_vec_capacity = 0) then ret tt
  else
    a <- vec__has_header ;;
    if negb a then
      r <- VEC_MALLOC ok (alloc_size _vec_capacity) ;;
      match r with
      | Some h =>
          vec__set_header h ;;
          store_cap h _vec_capacity ;;
          store_len h 0
      | None => fail
      end
    else
      h <- vec__get_header ;;
      c <- load_cap h ;;
      if bool_decide (_vec_capacity > c) then
        r <- VEC_REALLOC ok h (alloc_size _vec_capacity) ;;
        match r with
        | Some h' =>
            vec__set_header h' ;;
            store_cap h' _vec_capacity
        | None => fail
        end
      else ret tt.

Definition vec_reserve (capacity : Z) (ok : bool) : M unit :=
  vec__reserve_or_fail capacity (VEC_PANIC "vec_reserve out of memory") ok.

Definition vec_try_reserve (capacity : Z) (ok : bool) : M unit :=
  vec__reserve_or_fail capacity (set_errno ENOMEM) ok.

(** [vec_pop] *)
Definition vec_pop : M unit :=
  n <- vec_len ;;
  VEC_ASSERT (bool_decide (n > 0)) "vec_pop empty" ;;
  h <- vec__get_header ;;
  l <- load_len h ;;
  store_len h (wrap (l - 1)).

(** [vec_clear] *)
Definition vec_clear : M unit :=
  a <- vec__has_header ;;
  if a then h <- vec__get_header ;; store_len h 0 else ret tt.

(** [vec_remove_swap_at]; [size_t _vec_index = (index)]. *)
Definition vec_remove_swap_at (index : Z) : M unit :=
  let _vec_index := wrap index in
  n <- vec_len ;;
  VEC_ASSERT (bool_decide (_vec_index < n)) "vec_remove_swap_at out of bounds" ;;
  h <- vec__get_header ;;
  l <- load_len h ;;
  store_len h (wrap (l - 1)) ;;
  l' <- load_len h ;;
  x <- load_slot h l' ;;
  store_slot h _vec_index x.

(** A [for] loop whose counter runs over the given indices.  The loops of
    the source test the counter against [_vec_header->len], which their
    bodies do not write, so the bound is read once. *)
Fixpoint for_each (body : Z → M unit) (indices : list Z) : M unit :=
  match indices with
  | [] => ret tt
  | i :: rest => body i ;; for_each body rest
  end.

Definition for_range (lo hi : Z) (body : Z → M unit) : M unit :=
  for_each body (seqZ lo (hi - lo)).

(** [vec_remove_shift_at] *)
Definition vec_remove_shift_at (index : Z) : M unit :=
  let _vec_index := wrap index in
  n <- vec_len ;;
  VEC_ASSERT (bool_decide (_vec_index < n)) "vec_remove_shift_at out of bounds" ;;
  h <- vec__get_header ;;
  l <- load_len h ;;
  store_len h (wrap (l - 1)) ;;
  l' <- load_len h ;;
  for_range _vec_index l' (λ _vec_i,
    x <- load_slot h (wrap (_vec_i + 1)) ;;
    store_slot h _vec_i x).

(** [vec_deinit_with].  The destructor is handed the address of one
    element; it is modelled by what it does to that element, which it is
    taken to access. *)
Definition vec_deinit_with (deinit_fn : T → T) : M unit :=
  a <- vec__has_header ;;
  if a then
    h <- vec__get_header ;;
    l <- load_len h ;;
    for_range 0 l (λ _vec_i,
      x <- load_slot h _vec_i ;;
      store_slot h _vec_i (deinit_fn <$> x)) ;;
    VEC_FREE (Some h)
  else ret tt.

(** [( *(vec))[i]]: how a caller reads element [i]. *)
Definition vec_at (i : Z) : M (option T) :=
  h <- vec__get_header ;;
  load_slot h i.

(** ** The destructor-aware variants and the traversal

    [vec_pop_with] is not among them: in the source its [VEC_ASSERT] is
    followed by a declaration with no [;] between them, so that no use of
    the macro compiles with [VEC_ASSERT] an expression, as [assert] is. *)

(** [(deinit_fn)( *(vec) + i)]: the destructor runs on slot [i] (modelled
    as in [vec_deinit_with]). *)
Definition call_deinit (deinit_fn : T → T) (h : ptr) (i : Z) : M unit :=
  x <- load_slot h i ;;
  store_slot h i (deinit_fn <$> x).

(** [vec_clear_with] *)
Definition vec_clear_with (deinit_fn : T → T) : M unit :=
  a <- vec__has_header ;;
  if a then
    h <- vec__get_header ;;
    l <- load_len h ;;
    for_range 0 l (call_deinit deinit_fn h) ;;
    store_len h 0
  else ret tt.

(** [vec_remove_swap_at_with] *)
Definition vec_remove_swap_at_with (index : Z) (deinit_fn : T → T) : M unit :=
  let _vec_index := wrap index in
  n <- vec_len ;;
  VEC_ASSERT (bool_decide (_vec_index < n))
             "vec_remove_swap_at_with out of bounds" ;;
  h <- vec__get_header ;;
  l <- load_len h ;;
  store_len h (wrap (l - 1)) ;;
  call_deinit deinit_fn h _vec_index ;;
  l' <- load_len h ;;
  x <- load_slot h l' ;;
  store_slot h _vec_index x.

(** [vec_remove_shift_at_with]; the message of its assertion is the one of
    the swap variant, as in the source. *)
Definition vec_remove_shift_at_with (index : Z) (deinit_fn : T → T) : M unit :=
  let _vec_index := wrap index in
  n <- vec_len ;;
  VEC_ASSERT (bool_decide (_vec_index < n))
             "vec_remove_swap_at_with out of bounds" ;;
  h <- vec__get_header ;;
  l <- load_len h ;;
  store_len h (wrap (l - 1)) ;;
  call_deinit deinit_fn h _vec_index ;;
  l' <- load_len h ;;
  for_range _vec_index l' (λ _vec_i,
    x <- load_slot h (wrap (_vec_i + 1)) ;;
    store_slot h _vec_i x).

(** [*(vec)] as the initial value of [value_ptr]. *)
Definition handle_ref : M ref := λ s,
  Ret (match vec s with Some h => SlotRef h 0 | None => NullRef end, s).

(** The two nested [for] statements of [vec_for_each_index], from the test
    of the inner one on.  The body is the statement the caller writes after
    the macro; it sees [value_ptr] and the index and may change the vector,
    so the length and the handle are read again on every round, and [fuel]
    bounds the number of tests.  The result is [false] when the fuel runs
    out.

    [for (size_t index=0; index==0; ++index)
       for (T *value_ptr=*(vec); index<vec__get_header(vec)->len;
            value_ptr=*(vec)+(++index)) body] *)
Fixpoint for_each_steps (fuel : nat) (body : ref → Z → M unit)
    (index : Z) (value_ptr : ref) : M bool :=
  match fuel with
  | O => ret false
  | S fuel =>
      h <- vec__get_header ;;
      l <- load_len h ;;
      if bool_decide (index < l) then
        body value_ptr index ;;
        let index' := wrap (index + 1) in
        h' <- vec__get_header ;;
        value_ptr' <- slot_addr h' index' ;;
        for_each_steps fuel body index' value_ptr'
      else
        (* the inner loop is over: [++index], then [index==0] *)
        if bool_decide (wrap (index + 1) = 0) then
          value_ptr' <- handle_ref ;;
          for_each_steps fuel body 0 value_ptr'
        else ret true
  end.

(** [vec_for_each_index] *)
Definition vec_for_each_index (fuel : nat) (body : ref → Z → M unit) : M bool :=
  a <- vec__has_header ;;
  if a then
    value_ptr <- handle_ref ;;
    for_each_steps fuel body 0 value_ptr
  else ret true.

(** [vec_for_each]: the same statement with the counter named [_vec_i];
    the body is written against [value_ptr] alone. *)
Definition vec_for_each (fuel : nat) (body : ref → M unit) : M bool :=
  vec_for_each_index fuel (λ value_ptr _, body value_ptr).

(** [*value_ptr] and [*value_ptr = x] in a body. *)
Definition load_ref (r : ref) : M (option T) :=
  match r with
  | SlotRef h i => load_slot h i
  | NullRef => λ _, Undef
  end.

Definition store_ref (r : ref) (x : option T) : M unit :=
  match r with
  | SlotRef h i => store_slot h i x
  | NullRef => λ _, Undef
  end.

(** A body that updates the element in place: [*value_ptr = f( *value_ptr)]. *)
Definition update_at (f : T → T) (value_ptr : ref) : M unit :=
  x <- load_ref value_ptr ;;
  store_ref value_ptr (f <$> x).

(** ** Sequences of calls *)

Inductive op :=
| OpInit
| OpPush (value : T) (ok : bool)
| OpTryPush (value : T) (ok : bool)
| OpEmplace (ok : bool)
| OpTryEmplace (ok : bool)
| OpReserve (capacity : Z) (ok : bool)
| OpTryReserve (capacity : Z) (ok : bool)
| OpPop
| OpClear
| OpRemoveSwapAt (index : Z)
| OpRemoveShiftAt (index : Z)
| OpDeinit.

Definition run_op (o : op) : M unit :=
  match o with
  | OpInit => vec_init
  | OpPush v ok => vec_push v ok
  | OpTryPush v ok => vec_try_push v ok
  | OpEmplace ok => vec_emplace ok ;; ret tt
  | OpTryEmplace ok => vec_try_emplace ok ;; ret tt
  | OpReserve k ok => vec_reserve k ok
  | OpTryReserve k ok => vec_try_reserve k ok
  | OpPop => vec_pop
  | OpClear => vec_clear
  | OpRemoveSwapAt i => vec_remove_swap_at i
  | OpRemoveShiftAt i => vec_remove_shift_at i
  | OpDeinit => vec_deinit
  end.

Fixpoint run (ops : list op) : M unit :=
  match ops with
  | [] => ret tt
  | o :: rest => run_op o ;; run rest
  end.

(** The state a command ends in, when it returns. *)
Definition exec {A} (c : M A) (s : state T) : option (state T) :=
  match c s with
  | Ret (_, s') => Some s'
  | _ => None
  end.

(** The live elements, as a caller that reads indices [0 .. len-1] sees
    them. *)
Definition contents (b : block T) : list (option T) :=
  (λ i, elems b !! i) <$> seqZ 0 (hdr_len b).

Definition snapshot (s : state T) : list (option T) :=
  match vec s with
  | Some h => match heap s !! h with Some b => contents b | None => [] end
  | None => []
  end.

End Vec.

#[global] Typeclasses Opaque slot_in addr_in.
#[global] Arguments slot_in_dec : simpl never.
#[global] Arguments addr_in_dec : simpl never.

Notation "x <- c ;; k" := (bind c (λ x, k))
  (at level 100, c at next level, right associativity).
Notation "c ;; k" := (bind c (λ _, k))
  (at level 100, right associativity).

(** ** Vocabulary of the statements *)

Section Predicates.
Context `{Abi} {T : Type}.

(** The handle points to the live block [b], which holds a header. *)
Definition allocated (s : state T) (h : ptr) (b : block T) : Prop :=
  vec s = Some h ∧ heap s !! h = Some b ∧ sizeof_header ≤ blk_size b.

(** The header fields are [size_t] values with [len ≤ cap] and [cap ≠ 0]. *)
Definition block_ok (b : block T) : Prop :=
  0 ≤ hdr_len b ≤ hdr_cap b ∧ 0 < hdr_cap b < 2 ^ size_bits.

(** The representation invariant: the handle is [NULL], or it points to a
    live block whose header is consistent. *)
Definition vec_ok (s : state T) : Prop :=
  vec s = None ∨ ∃ h b, allocated s h b ∧ block_ok b.


(** The block has room for all [cap] slots its header announces. *)
Definition backed (b : block T) : Prop :=
  sizeof_header + sizeof_T * hdr_cap b ≤ blk_size b.

(** The live elements lie inside the block. *)
Definition stored (b : block T) : Prop :=
  sizeof_header + sizeof_T * hdr_len b ≤ blk_size b.

(** The handle points to storage that has been freed. *)
Definition dangling (s : state T) : Prop :=
  ∃ h, vec s = Some h ∧ heap s !! h = None.

(** The invariant as a caller observes it through [vec_len] and
    [vec_cap]. *)
Definition invariant (s : state T) : Prop :=
  ∃ l c, vec_len s = Ret (l, s) ∧ vec_cap s = Ret (c, s) ∧
         0 ≤ l ≤ c ∧ (c = 0 ↔ vec s = None).

(** [n] calls of [vec_push], each with its value and the allocator's
    answer. *)
Definition push_all (xs : list (T * bool)) : M unit :=
  foldr (λ x k, vec_push x.1 x.2 ;; k) (ret tt) xs.

(** The capacity after [n] appends to a fresh vector: 0, 1, 2, 4, 4, 8,
    ...: the least power of two that is at least [n]. *)
Definition cap_after (n : nat) : Z :=
  match n with
  | O => 0
  | S _ => 2 ^ Z.log2_up (Z.of_nat n)
  end.

(** What a fresh vector looks like after the values [vs] have been pushed:
    [NULL] for no values, and otherwise a block that stores them in its
    first [length vs] slots. *)
Definition pushed (vs : list T) (s : state T) : Prop :=
  match vs with
  | [] => vec s = None
  | _ :: _ =>
      ∃ h b, allocated s h b ∧
             hdr_len b = Z.of_nat (length vs) ∧
             hdr_cap b = cap_after (length vs) ∧
             hdr_cap b < 2 ^ size_bits ∧
             sizeof_header + sizeof_T * hdr_len b ≤ blk_size b < 2 ^ size_bits ∧
             ∀ (i : nat) v, vs !! i = Some v → elems b !! Z.of_nat i = Some v
  end.

(** The vector holds exactly the values [vs], in this order. *)
Definition holds (s : state T) (vs : list T) : Prop :=
  vec_len s = Ret (Z.of_nat (length vs), s) ∧
  ∀ (i : nat) v, vs !! i = Some v → vec_at (Z.of_nat i) s = Ret (Some v, s).

(** The handle is [h], and its block has [sz] bytes and length [l]. *)
Definition header_at (h : ptr) (sz l : Z) (s : state T) : Prop :=
  vec s = Some h ∧
  ∃ b, heap s !! h = Some b ∧ blk_size b = sz ∧ hdr_len b = l.

(** A loop body that leaves the handle, the size of the block and the
    length alone: it neither grows nor shrinks the vector it traverses. *)
Definition keeps_header (h : ptr) (sz l : Z) (body : ref → Z → M unit) : Prop :=
  ∀ p i s s', header_at h sz l s → body p i s = Ret (tt, s') → header_at h sz l s'.

(** The step from [s] to [s'] keeps the handle and every block but the one
    the handle points to. *)
Definition keeps (s s' : state T) : Prop :=
  vec s' = vec s ∧
  match vec s with
  | Some h => delete h (heap s') = delete h (heap s)
  | None => heap s' = heap s
  end.

(** A command that, run with the handle at [v], makes such a step when it
    returns. *)
Definition local_at {A} (v : option ptr) (c : M A) : Prop :=
  ∀ s a s', vec s = v → c s = Ret (a, s') → keeps s s'.

(** The heap is [hp0] and at most one more block, the one of the handle. *)
Definition owns (hp0 : gmap ptr (block T)) (s : state T) : Prop :=
  match vec s with
  | None => heap s = hp0
  | Some h => hp0 !! h = None ∧ delete h (heap s) = hp0
  end.

End Predicates.

#[global] Arguments cap_after : simpl never.

(** ** Two platforms *)

(** LP64 with [int] elements: [size_t] has 64 bits, the header 16 bytes. *)
Definition lp64_int : Abi :=
  {| size_bits := 64; sizeof_header := 16; sizeof_T := 4; ENOMEM := 12;
     size_bits_pos := eq_refl; sizeof_header_pos := eq_refl;
     sizeof_T_pos := eq_refl |}.

(** LP64 with [char] elements. *)
Definition lp64_char : Abi :=
  {| size_bits := 64; sizeof_header := 16; sizeof_T := 1; ENOMEM := 12;
     size_bits_pos := eq_refl; sizeof_header_pos := eq_refl;
     sizeof_T_pos := eq_refl |}.

(** A program state before the vector is declared. *)
Definition boot : state Z := State None ∅ 0.

(** A vector of [int]s: one block of [size] bytes at the first address,
    with capacity [cap] and the values [vs] in its first slots. *)
Definition block_of (size cap : Z) (vs : list Z) : block Z :=
  Block size (Z.of_nat (length vs)) cap
        (list_to_map (zip (seqZ 0 (Z.of_nat (length vs))) vs)).

Definition vec_of (size cap : Z) (vs : list Z) (e : Z) : state Z :=
  State (Some 1%positive) {[1%positive := block_of size cap vs]} e.

(** The same handle after its block has been freed. *)
Definition released : state Z := State (Some 1%positive) ∅ 0.

(** A fresh vector when [errno] holds [ENOMEM] (12). *)
Definition out_of_memory : state Z := State None ∅ 12.

(** A vector of length 1 whose slot has not been written, with [errno] at
    [ENOMEM]. *)
Definition unwritten : state Z :=
  State (Some 1%positive) {[1%positive := Block 20 1 1 ∅]} 12.

(** An empty vector of capacity 8 whose block still holds two old values. *)
Definition cleared : state Z :=
  State (Some 1%positive)
        {[1%positive := Block 48 0 8 (list_to_map [(0, 1); (1, 2)])]} 0.

(** A full vector of [2 ^ 63] [char]s, none of them written. *)
Definition half_block : block Z := Block (16 + 2 ^ 63) (2 ^ 63) (2 ^ 63) ∅.

Definition full_half : state Z := State (Some 1%positive) {[1%positive := half_block]} 0.

(** What [vec_reserve] of [2 ^ 62 + 1] [int]s leaves on LP64: a block of
    20 bytes whose header announces [2 ^ 62 + 1] slots. *)
Definition overcommitted_block : block Z := Block 20 0 (2 ^ 62 + 1) ∅.

Definition overcommitted : state Z :=
  State (Some 1%positive) {[1%positive := overcommitted_block]} 0.

(** A heap that holds the block of another owner, before the vector is
    declared. *)
Definition busy : state Z := State None {[1%positive := Block 8 0 0 ∅]} 0.

(** The same heap with a vector of one element and capacity 8 beside the
    other block. *)
Definition busy_vec : state Z :=
  State (Some 2%positive)
        (<[2%positive := Block 48 1 8 (list_to_map [(0, 20); (1, 20); (2, 30)])]>
           {[1%positive := Block 8 0 0 ∅]}) 0.

(** The vector [10, 20, 30] of capacity 4 after [vec_emplace]: four
    elements, the last one not written. *)
Definition emplaced : state Z :=
  State (Some 1%positive)
        {[1%positive := Block 32 4 4 (list_to_map [(0, 10); (1, 20); (2, 30)])]} 0.

(** A body that would stop the program. *)
Definition stop_body : ref → Z → M (T := Z) unit := λ _ _, VEC_PANIC "body".

(** * Proofs *)

Section Proofs.
Context `{Abi} {T : Type}.
Implicit Types (s : state T) (b : block T) (h : ptr).

(** ** [size_t] arithmetic *)

Lemma pow_size_pos : 0 < 2 ^ size_bits.
Proof. apply Z.pow_pos_nonneg; [lia | pose proof size_bits_pos; lia]. Qed.

Lemma pow_size_half : 2 ^ size_bits = 2 * 2 ^ (size_bits - 1).
Proof.
  pose proof size_bits_pos.
  rewrite <- Z.pow_succ_r by lia. f_equal. lia.
Qed.

Lemma pow_half_pos : 0 < 2 ^ (size_bits - 1).
Proof. apply Z.pow_pos_nonneg; [lia | pose proof size_bits_pos; lia]. Qed.

Lemma wrap_range x : 0 ≤ wrap x < 2 ^ size_bits.
Proof. apply Z.mod_pos_bound, pow_size_pos. Qed.

Lemma wrap_small x : 0 ≤ x < 2 ^ size_bits → wrap x = x.
Proof. intros. apply Z.mod_small. done. Qed.

Lemma wrap_once x : 2 ^ size_bits ≤ x < 2 * 2 ^ size_bits → wrap x = x - 2 ^ size_bits.
Proof.
  intros. unfold wrap.
  replace x with ((x - 2 ^ size_bits) + 1 * 2 ^ size_bits) at 1 by lia.
  rewrite Z.mod_add by lia. apply Z.mod_small. lia.
Qed.

Lemma wrap_minus_one : wrap (0 - 1) = 2 ^ size_bits - 1.
Proof.
  unfold wrap. pose proof pow_size_pos.
  replace (0 - 1) with ((2 ^ size_bits - 1) + (-1) * 2 ^ size_bits) by lia.
  rewrite Z.mod_add by lia. apply Z.mod_small. lia.
Qed.

(** [len += 1] followed by [len - 1] gives back the old length. *)
Lemma wrap_succ_pred x : 0 ≤ x < 2 ^ size_bits → wrap (wrap (x + 1) - 1) = x.
Proof.
  intros. destruct (decide (x + 1 < 2 ^ size_bits)).
  - rewrite (wrap_small (x + 1)) by lia. rewrite wrap_small; lia.
  - replace (x + 1) with (2 ^ size_bits) by lia.
    unfold wrap at 2. rewrite Z.mod_same by lia.
    rewrite wrap_minus_one. lia.
Qed.

(** ** Running commands symbolically *)

Lemma bind_ret_inv {A B} (c : M A) (k : A → M B) s r :
  (x <- c ;; k x) s = Ret r → ∃ a s1, c s = Ret (a, s1) ∧ k a s1 = Ret r.
Proof.
  unfold bind. destruct (c s) as [[a s1]| | |]; try done. eauto.
Qed.

Lemma bind_unfold {A B} (c : M A) (k : A → M B) s :
  (x <- c ;; k x) s =
    match c s with
    | Ret (a, s') => k a s'
    | Panic r => Panic r
    | AssertFail r => AssertFail r
    | Undef => Undef
    end.
Proof. done. Qed.

Ltac unfold_prims :=
  unfold vec_len, vec_cap, vec_at, vec__has_header, vec__get_header,
    vec__set_header, load_len, load_cap, store_len, store_cap, header,
    load_slot, store_slot, put_block, slot_addr, get_errno, set_errno,
    VEC_MALLOC, VEC_REALLOC, VEC_FREE, VEC_ASSERT, VEC_PANIC, resize,
    bind, ret in *.

Ltac sim_step :=
  match goal with
  | H : ?hp !! ?h = _ |- context [?hp !! ?h] => rewrite H
  | |- context [<[?h := _]> _ !! ?h] => rewrite lookup_insert_eq
  | |- context [<[?h := _]> (<[?h := _]> _)] => rewrite insert_insert_eq
  | |- context [decide ?P] =>
      first [ rewrite (decide_True (P := P)) by (simpl; lia)
            | rewrite (decide_False (P := P)) by (simpl; lia) ]
  | |- context [bool_decide ?P] =>
      first [ rewrite (bool_decide_eq_true_2 P) by (simpl; lia)
            | rewrite (bool_decide_eq_false_2 P) by (simpl; lia) ]
  end.

Ltac sim := repeat (simpl; try sim_step).

(** ** The getters *)

Lemma vec_len_null s : vec s = None → vec_len s = Ret (0, s).
Proof. intros Hv. destruct s; simpl in *; subst. done. Qed.

Lemma vec_cap_null s : vec s = None → vec_cap s = Ret (0, s).
Proof. intros Hv. destruct s; simpl in *; subst. done. Qed.

Lemma vec_len_allocated s h b : allocated s h b → vec_len s = Ret (hdr_len b, s).
Proof.
  intros (Hv & Hh & Hsz). destruct s; simpl in *; subst.
  unfold_prims. by sim.
Qed.

Lemma vec_cap_allocated s h b : allocated s h b → vec_cap s = Ret (hdr_cap b, s).
Proof.
  intros (Hv & Hh & Hsz). destruct s; simpl in *; subst.
  unfold_prims. by sim.
Qed.

Lemma vec_len_dangling s : dangling s → vec_len s = Undef.
Proof.
  intros (h & Hv & Hh). destruct s; simpl in *; subst.
  unfold_prims. by sim.
Qed.

Lemma vec_cap_dangling s : dangling s → vec_cap s = Undef.
Proof.
  intros (h & Hv & Hh). destruct s; simpl in *; subst.
  unfold_prims. by sim.
Qed.

Lemma allocated_insert (hp : gmap ptr (block T)) e h b :
  sizeof_header ≤ blk_size b → allocated (State (Some h) (<[h := b]> hp) e) h b.
Proof. intros. split_and!; simpl; [done | apply lookup_insert_eq | done]. Qed.


(** ** The growth engine *)

Lemma grow_null fail ok s :
  vec s = None →
  vec__grow_or_fail fail ok s =
    if ok then
      let h := fresh (dom (heap s)) in
      let sz := wrap (sizeof_header + sizeof_T) in
      if decide (sizeof_header ≤ sz) then
        Ret (tt, State (Some h) (<[h := Block sz 1 1 ∅]> (heap s)) (errno s))
      else Undef
    else fail s.
Proof.
  intros Hv. destruct s as [v hp e]. simpl in *. subst v.
  unfold vec__grow_or_fail. unfold_prims. sim.
  destruct ok; sim; [|done].
  case_decide; sim; done.
Qed.

Lemma grow_allocated fail ok s h b :
  allocated s h b →
  vec__grow_or_fail fail ok s =
    if bool_decide (hdr_len b < hdr_cap b) then
      Ret (tt, State (Some h)
                 (<[h := Block (blk_size b) (wrap (hdr_len b + 1)) (hdr_cap b)
                            (elems b)]> (heap s))
                 (errno s))
    else if ok then
      let c := wrap (hdr_cap b * 2) in
      if decide (sizeof_header ≤ alloc_size c) then
        Ret (tt, State (Some h)
                   (<[h := Block (alloc_size c) (wrap (hdr_len b + 1)) c
                              (filter (λ kv, slot_in (alloc_size c) kv.1) (elems b))]>
                      (heap s))
                   (errno s))
      else Undef
    else fail s.
Proof.
  intros (Hv & Hh & Hsz). destruct s as [v hp e]. simpl in *. subst v.
  unfold vec__grow_or_fail. unfold_prims. sim.
  case_bool_decide; sim; [done|].
  destruct ok; sim; [|done].
  case_decide; sim; done.
Qed.

Lemma grow_dangling fail ok s : dangling s → vec__grow_or_fail fail ok s = Undef.
Proof.
  intros (h & Hv & Hh). destruct s as [v hp e]. simpl in *. subst v.
  unfold vec__grow_or_fail. unfold_prims. by sim.
Qed.

(** C10: growing a full array computes the new capacity as [cap * 2] in
    [size_t], that is [(2 * cap) mod 2 ^ size_bits], with no guard against
    overflow: when the reallocation succeeds this value is stored as the
    capacity, and for [cap ≥ 2 ^ (size_bits - 1)] it is smaller than the
    length the array already has. *)
Theorem grow_capacity_wraps (fail : M unit) s h b :
  allocated s h b →
  hdr_len b = hdr_cap b →
  0 ≤ hdr_cap b < 2 ^ size_bits →
  sizeof_header ≤ alloc_size ((2 * hdr_cap b) mod 2 ^ size_bits) →
  ∃ s', vec__grow_or_fail fail true s = Ret (tt, s') ∧
        vec_cap s' = Ret ((2 * hdr_cap b) mod 2 ^ size_bits, s') ∧
        vec_len s' = Ret (wrap (hdr_len b + 1), s') ∧
        (2 ^ (size_bits - 1) ≤ hdr_cap b →
         (2 * hdr_cap b) mod 2 ^ size_bits < hdr_len b).
Proof.
  intros Ha Hfull Hc Hfit.
  rewrite (grow_allocated fail true s h b Ha).
  rewrite bool_decide_eq_false_2 by lia. simpl.
  replace (wrap (hdr_cap b * 2)) with ((2 * hdr_cap b) mod 2 ^ size_bits)
    by (unfold wrap; f_equal; lia).
  rewrite decide_True by done.
  eexists. split; [done|].
  erewrite vec_cap_allocated, vec_len_allocated by (by apply allocated_insert).
  simpl. split_and!; try done.
  intros Hbig. pose proof pow_size_half.
  fold (wrap (2 * hdr_cap b)). rewrite wrap_once by lia. lia.
Qed.

(** ** [vec_push] *)

Lemma slot_in_header sz i : slot_in sz i → sizeof_header ≤ sz.
Proof. pose proof sizeof_T_pos. unfold slot_in. nia. Qed.

Lemma slot_in_below sz i j : slot_in sz i → 0 ≤ j ≤ i → slot_in sz j.
Proof. pose proof sizeof_T_pos. unfold slot_in. nia. Qed.

Lemma vec_push_null v ok s :
  vec s = None →
  vec_push v ok s =
    if ok then
      let h := fresh (dom (heap s)) in
      let sz := wrap (sizeof_header + sizeof_T) in
      if decide (slot_in sz 0) then
        Ret (tt, State (Some h) (<[h := Block sz 1 1 (<[0 := v]> ∅)]> (heap s))
                   (errno s))
      else Undef
    else Panic "vec_push out of memory".
Proof.
  intros Hv. unfold vec_push. rewrite bind_unfold, (grow_null _ _ _ Hv).
  destruct ok; [|done]. simpl.
  case_decide as Hsz; simpl.
  - unfold_prims. sim.
    rewrite (wrap_small (1 - 1)) by (pose proof pow_size_pos; lia).
    change (1 - 1) with 0.
    case_decide; by sim.
  - rewrite decide_False; [done|]. intros ?%slot_in_header. done.
Qed.

Lemma vec_push_allocated v ok s h b :
  allocated s h b →
  0 ≤ hdr_len b < 2 ^ size_bits →
  vec_push v ok s =
    if bool_decide (hdr_len b < hdr_cap b) then
      if decide (slot_in (blk_size b) (hdr_len b)) then
        Ret (tt, State (Some h)
                   (<[h := Block (blk_size b) (wrap (hdr_len b + 1)) (hdr_cap b)
                              (<[hdr_len b := v]> (elems b))]> (heap s))
                   (errno s))
      else Undef
    else if ok then
      let c := wrap (hdr_cap b * 2) in
      if decide (slot_in (alloc_size c) (hdr_len b)) then
        Ret (tt, State (Some h)
                   (<[h := Block (alloc_size c) (wrap (hdr_len b + 1)) c
                              (<[hdr_len b := v]>
                                 (filter (λ kv, slot_in (alloc_size c) kv.1) (elems b)))]>
                      (heap s))
                   (errno s))
      else Undef
    else Panic "vec_push out of memory".
Proof.
  intros Ha Hl. pose proof Ha as (Hv & Hh & Hsz).
  unfold vec_push. rewrite bind_unfold, (grow_allocated _ _ _ _ _ Ha).
  case_bool_decide; simpl.
  - unfold_prims. sim. rewrite wrap_succ_pred by done.
    case_decide; by sim.
  - destruct ok; [|done]. simpl. case_decide as Hfit; simpl.
    + unfold_prims. sim. rewrite wrap_succ_pred by done.
      case_decide; by sim.
    + rewrite decide_False; [done|]. intros ?%slot_in_header. done.
Qed.

(** *** The capacity curve *)

Lemma cap_after_room (n : nat) :
  Z.of_nat n < cap_after n → cap_after (S n) = cap_after n.
Proof.
  destruct n as [|n]; [unfold cap_after; simpl; lia|]. intros Hlt.
  unfold cap_after in *. f_equal.
  destruct (decide (Z.of_nat (S n) = 1)) as [E|E].
  { rewrite E in Hlt. by vm_compute in Hlt. }
  pose proof (Z.log2_up_spec (Z.of_nat (S n)) ltac:(lia)) as Hs.
  pose proof (Z.log2_up_pos (Z.of_nat (S n)) ltac:(lia)).
  apply Z.log2_up_unique; lia.
Qed.

Lemma cap_after_full (n : nat) :
  (0 < n)%nat → Z.of_nat n = cap_after n → cap_after (S n) = 2 * cap_after n.
Proof.
  destruct n as [|n]; [lia|]. intros _ Hfull.
  unfold cap_after in *.
  pose proof (Z.log2_up_nonneg (Z.of_nat (S n))).
  rewrite <- Z.pow_succ_r by done. f_equal.
  apply Z.log2_up_unique; [lia|].
  rewrite Z.pred_succ, Z.pow_succ_r by done. lia.
Qed.

(** *** Doubling past half of the [size_t] range

    When [cap ≥ 2 ^ (size_bits - 1)] the doubled capacity wraps, and the
    reallocated block is too small for slot [cap], which the appended
    element goes to. *)
Lemma slot_in_after_overflow c :
  2 ^ (size_bits - 1) ≤ c < 2 ^ size_bits →
  ¬ slot_in (alloc_size (wrap (c * 2))) c.
Proof.
  intros Hc [_ Hin].
  pose proof pow_size_half as Hhalf. pose proof pow_half_pos.
  pose proof sizeof_T_pos. pose proof sizeof_header_pos.
  pose proof (wrap_range (sizeof_header + wrap (sizeof_T * wrap (c * 2)))) as Hr.
  fold (alloc_size (wrap (c * 2))) in Hr.
  assert (sizeof_T = 1) as HT by nia.
  unfold alloc_size in Hin, Hr. rewrite HT in Hin, Hr.
  rewrite (wrap_once (c * 2)) in Hin, Hr by lia.
  rewrite !Z.mul_1_l in Hin. rewrite !Z.mul_1_l in Hr.
  rewrite (wrap_small (c * 2 - 2 ^ size_bits)) in Hin, Hr by lia.
  destruct (decide (sizeof_header + (c * 2 - 2 ^ size_bits) < 2 ^ size_bits)).
  - rewrite wrap_small in Hin by lia. lia.
  - rewrite wrap_once in Hin by lia. lia.
Qed.

(** *** One more push *)

Lemma pushed_nonempty vs s :
  vs ≠ [] →
  pushed vs s ↔
  ∃ h b, allocated s h b ∧
         hdr_len b = Z.of_nat (length vs) ∧
         hdr_cap b = cap_after (length vs) ∧
         hdr_cap b < 2 ^ size_bits ∧
         sizeof_header + sizeof_T * hdr_len b ≤ blk_size b < 2 ^ size_bits ∧
         ∀ (i : nat) v, vs !! i = Some v → elems b !! Z.of_nat i = Some v.
Proof. by destruct vs. Qed.

Lemma pushed_step vs s v ok s' :
  pushed vs s → vec_push v ok s = Ret (tt, s') → pushed (vs ++ [v]) s'.
Proof.
  pose proof sizeof_T_pos. pose proof sizeof_header_pos.
  pose proof pow_size_half. pose proof pow_half_pos.
  assert (vs ++ [v] ≠ []) as Hne' by (by destruct vs).
  rewrite (pushed_nonempty _ _ Hne'), length_app. simpl length.
  destruct vs as [|x vs].
  - simpl. intros Hv. rewrite (vec_push_null _ _ _ Hv).
    destruct ok; [|done]. simpl. case_decide as Hin; [|done].
    intros [= <-]. eexists _, _.
    pose proof (wrap_range (sizeof_header + sizeof_T)).
    destruct Hin as [_ Hin].
    split; [apply allocated_insert; simpl; lia|].
    simpl. split_and!; try done; try lia.
    intros [|i] w; simpl; [|done]. intros [= ->]. apply lookup_insert_eq.
  - remember (x :: vs) as l eqn:El.
    assert (l ≠ []) as Hne by (by subst).
    rewrite (pushed_nonempty _ _ Hne).
    intros (h & b & Ha & Hlen & Hcap & Hcw & [Hst Hsz] & Hel).
    set (n := length l) in *.
    assert (0 < n)%nat by (unfold n; subst l; simpl; lia).
    replace (n + 1)%nat with (S n) by lia.
    assert (0 ≤ hdr_len b < 2 ^ size_bits) as Hl by nia.
    rewrite (vec_push_allocated _ _ _ _ _ Ha Hl).
    assert (∀ (i : nat) w (m : gmap Z T), (l ++ [v]) !! i = Some w →
              (∀ j : nat, (j < n)%nat → ∀ u,
                 elems b !! Z.of_nat j = Some u → m !! Z.of_nat j = Some u) →
              (<[hdr_len b := v]> m) !! Z.of_nat i = Some w) as Hlook.
    { intros i w m Hi Hm.
      destruct (decide (i < n)%nat) as [Hlt|Hge].
      - rewrite lookup_app_l in Hi by done.
        rewrite lookup_insert_ne by lia. eapply Hm; eauto.
      - rewrite lookup_app_r in Hi by (fold n; lia).
        fold n in Hi. destruct (i - n)%nat as [|k] eqn:E; simpl in Hi; [|done].
        injection Hi as ->. replace (Z.of_nat i) with (hdr_len b) by lia.
        apply lookup_insert_eq. }
    case_bool_decide as Hroom; simpl.
    + case_decide as Hin; [|done]. intros [= <-].
      destruct Hin as [_ Hin].
      rewrite wrap_small by lia.
      eexists _, _. split; [apply allocated_insert; simpl; apply Ha|].
      simpl. split_and!; try lia.
      * rewrite cap_after_room; lia.
      * intros i w Hi. eapply Hlook; eauto.
    + destruct ok; [|done]. simpl. case_decide as Hin; [|done]. intros [= <-].
      assert (hdr_len b = hdr_cap b) as Hfull.
      { apply Z.le_antisymm; [|lia]. rewrite Hlen, Hcap.
        destruct n as [|n']; [lia|]. unfold cap_after.
        destruct (decide (Z.of_nat (S n') = 1)) as [->|]; [done|].
        apply Z.log2_up_spec. lia. }
      assert (hdr_cap b < 2 ^ (size_bits - 1)) as Hhalf.
      { destruct (decide (hdr_cap b < 2 ^ (size_bits - 1))); [done|].
        exfalso. eapply (slot_in_after_overflow (hdr_cap b)); [lia|].
        by rewrite <- Hfull at 2. }
      rewrite (wrap_small (hdr_cap b * 2)) in * by lia.
      pose proof (wrap_range (sizeof_header + wrap (sizeof_T * (hdr_cap b * 2)))) as Hr.
      fold (alloc_size (hdr_cap b * 2)) in Hr.
      rewrite wrap_small by lia.
      eexists _, _. split.
      { apply allocated_insert. simpl. by eapply slot_in_header. }
      simpl. pose proof Hin as [_ Hin'].
      split_and!; try lia.
      * rewrite cap_after_full; lia.
      * intros i w Hi. eapply Hlook; eauto.
        intros j Hj u Hu. apply map_lookup_filter_Some. split; [done|].
        simpl. eapply slot_in_below; [done|lia].
Qed.

Lemma push_all_pushed xs vs s s' :
  pushed vs s → push_all xs s = Ret (tt, s') → pushed (vs ++ xs.*1) s'.
Proof.
  revert vs s. induction xs as [|[v ok] xs IH]; intros vs s Hp.
  - simpl. unfold ret. intros [= <-]. by rewrite app_nil_r.
  - intros Hrun. rewrite fmap_cons, cons_middle, app_assoc.
    apply bind_ret_inv in Hrun as ([] & s1 & Hpush & Hrest).
    eapply IH; [|done]. by eapply pushed_step.
Qed.

Lemma pushed_holds vs s : pushed vs s → holds s vs.
Proof.
  pose proof sizeof_T_pos.
  destruct vs as [|x vs]; simpl.
  - intros Hv. split; [by apply vec_len_null|]. intros i w; done.
  - intros (h & b & Ha & Hlen & Hcap & Hcw & [Hst Hsz] & Hel).
    split; [by rewrite (vec_len_allocated _ _ _ Ha), Hlen|].
    intros i w Hi. pose proof (lookup_lt_Some _ _ _ Hi) as Hlt. simpl in Hlt.
    pose proof (Hel _ _ Hi) as Hw.
    destruct Ha as (Hv & Hh & _). destruct s; simpl in *; subst.
    unfold_prims. sim. rewrite decide_True; [done|].
    unfold slot_in. nia.
Qed.

(** C5: starting from a freshly initialised vector, after [N] calls of
    [vec_push] that returned (with values [v1 .. vN], whatever the
    allocator answered) the length is [N] and reading the indices
    [0 .. N-1] gives [v1 .. vN] in the order they were pushed. *)
Theorem push_all_holds (xs : list (T * bool)) s0 s :
  (vec_init ;; push_all xs) s0 = Ret (tt, s) →
  vec_len s = Ret (Z.of_nat (length xs), s) ∧
  ∀ (i : nat) v, xs.*1 !! i = Some v → vec_at (Z.of_nat i) s = Ret (Some v, s).
Proof.
  intros (a & s1 & Hinit & Hrun)%bind_ret_inv.
  assert (pushed [] s1) as Hp by (injection Hinit as _ <-; done).
  pose proof (pushed_holds _ _ (push_all_pushed _ _ _ _ Hp Hrun)) as [Hl Hat].
  simpl in *. by rewrite length_fmap in Hl.
Qed.


(** ** [vec_reserve] *)

Lemma reserve_zero K fail ok s :
  wrap K = 0 → vec__reserve_or_fail K fail ok s = Ret (tt, s).
Proof. intros HK. unfold vec__reserve_or_fail. by rewrite HK. Qed.

Lemma reserve_null K fail ok s :
  wrap K ≠ 0 →
  vec s = None →
  vec__reserve_or_fail K fail ok s =
    if ok then
      let h := fresh (dom (heap s)) in
      if decide (sizeof_header ≤ alloc_size (wrap K)) then
        Ret (tt, State (Some h)
                   (<[h := Block (alloc_size (wrap K)) 0 (wrap K) ∅]> (heap s))
                   (errno s))
      else Undef
    else fail s.
Proof.
  intros HK Hv. destruct s; simpl in *; subst.
  unfold vec__reserve_or_fail. rewrite bool_decide_eq_false_2 by done.
  unfold_prims. sim. destruct ok; sim; [|done].
  case_decide; by sim.
Qed.

Lemma reserve_allocated K fail ok s h b :
  wrap K ≠ 0 →
  allocated s h b →
  vec__reserve_or_fail K fail ok s =
    if bool_decide (wrap K > hdr_cap b) then
      if ok then
        if decide (sizeof_header ≤ alloc_size (wrap K)) then
          Ret (tt, State (Some h)
                     (<[h := Block (alloc_size (wrap K)) (hdr_len b) (wrap K)
                                (filter (λ kv, slot_in (alloc_size (wrap K)) kv.1)
                                        (elems b))]> (heap s))
                     (errno s))
        else Undef
      else fail s
    else Ret (tt, s).
Proof.
  intros HK (Hv & Hh & Hsz). destruct s; simpl in *; subst.
  unfold vec__reserve_or_fail. rewrite bool_decide_eq_false_2 by done.
  unfold_prims. sim. case_bool_decide; sim; [|done].
  destruct ok; sim; [|done].
  case_decide; by sim.
Qed.


(** ** Removal *)

Lemma contents_lookup b (k : nat) :
  contents b !! k =
    if decide (Z.of_nat k < hdr_len b) then Some (elems b !! Z.of_nat k) else None.
Proof.
  unfold contents. rewrite list_lookup_fmap. case_decide.
  - by rewrite lookup_seqZ_lt by done.
  - by rewrite lookup_seqZ_ge by lia.
Qed.

Lemma contents_length b : length (contents b) = Z.to_nat (hdr_len b).
Proof. unfold contents. by rewrite length_fmap, length_seqZ. Qed.

Lemma snapshot_allocated s h b : allocated s h b → snapshot s = contents b.
Proof. intros (Hv & Hh & _). unfold snapshot. by rewrite Hv, Hh. Qed.

Lemma block_eta b : Block (blk_size b) (hdr_len b) (hdr_cap b) (elems b) = b.
Proof. by destruct b. Qed.

Lemma vec_remove_swap_at_allocated i s h b :
  allocated s h b →
  0 ≤ i < hdr_len b →
  hdr_len b < 2 ^ size_bits →
  vec_remove_swap_at i s =
    if decide (slot_in (blk_size b) (hdr_len b - 1)) then
      Ret (tt, State (Some h)
                 (<[h := Block (blk_size b) (hdr_len b - 1) (hdr_cap b)
                            (partial_alter (λ _, elems b !! (hdr_len b - 1)) i
                                           (elems b))]> (heap s))
                 (errno s))
    else Undef.
Proof.
  intros (Hv & Hh & Hsz) Hi Hl. destruct s; simpl in *; subst.
  unfold vec_remove_swap_at.
  rewrite (wrap_small i) by lia.
  unfold_prims. sim. rewrite (wrap_small (hdr_len b - 1)) by lia.
  case_decide as Hin; sim; [|done].
  rewrite decide_True by (eapply slot_in_below; [done|lia]).
  by sim.
Qed.

(** C8: for an index below the length, [vec_remove_swap_at] returns with
    the length decremented, the capacity as it was, and the former last
    element copied into the removed slot (nothing is copied when the removed
    slot was the last); the other elements stay where they were. *)
Theorem swap_remove_moves_last i s h b :
  allocated s h b →
  block_ok b →
  stored b →
  0 ≤ i < hdr_len b →
  ∃ s', vec_remove_swap_at i s = Ret (tt, s') ∧
        vec_len s' = Ret (hdr_len b - 1, s') ∧
        vec_cap s' = Ret (hdr_cap b, s') ∧
        snapshot s' =
          <[Z.to_nat i := elems b !! (hdr_len b - 1)]>
            (take (Z.to_nat (hdr_len b - 1)) (snapshot s)).
Proof.
  pose proof sizeof_T_pos.
  intros Ha [Hl Hc] Hst Hi.
  rewrite (vec_remove_swap_at_allocated _ _ _ _ Ha Hi) by lia.
  rewrite decide_True by (unfold slot_in, stored in *; split; [lia|nia]).
  eexists. split; [done|].
  set (b' := Block _ _ _ _).
  assert (allocated (State (Some h) (<[h := b']> (heap s)) (errno s)) h b') as Ha'
    by (apply allocated_insert; apply Ha).
  rewrite (vec_len_allocated _ _ _ Ha'), (vec_cap_allocated _ _ _ Ha').
  rewrite (snapshot_allocated _ _ _ Ha'), (snapshot_allocated _ _ _ Ha).
  split_and!; try done.
  apply list_eq. intros k.
  rewrite list_lookup_insert, lookup_take, length_take, contents_length,
    !contents_lookup.
  subst b'. simpl. rewrite lookup_partial_alter.
  repeat case_decide; try lia; done.
Qed.

(** The loop of [vec_remove_shift_at]: [n] slots from [lo] on take the
    content of their right neighbour. *)
Lemma shift_loop (n : nat) :
  ∀ lo v (hp : gmap ptr (block T)) e h b,
    hp !! h = Some b →
    0 ≤ lo →
    slot_in (blk_size b) (lo + Z.of_nat n) →
    lo + Z.of_nat n < 2 ^ size_bits →
    ∃ m, for_each (λ _vec_i, x <- load_slot h (wrap (_vec_i + 1)) ;;
                            store_slot h _vec_i x)
                  (seqZ lo (Z.of_nat n)) (State v hp e)
         = Ret (tt, State v (<[h := Block (blk_size b) (hdr_len b) (hdr_cap b) m]> hp) e) ∧
         ∀ j, m !! j = if decide (lo ≤ j < lo + Z.of_nat n)
                       then elems b !! (j + 1) else elems b !! j.
Proof.
  induction n as [|n IH]; intros lo v hp e h b Hh Hlo Hin Hw.
  - exists (elems b). rewrite block_eta, insert_id by done. split; [done|].
    intros j. by rewrite decide_False by lia.
  - rewrite seqZ_cons by lia. simpl for_each.
    replace (Z.pred (Z.of_nat (S n))) with (Z.of_nat n) by lia.
    rewrite bind_unfold.
    assert (slot_in (blk_size b) (lo + 1)) by (apply (slot_in_below _ _ _ Hin); lia).
    assert (slot_in (blk_size b) lo) by (apply (slot_in_below _ _ _ Hin); lia).
    unfold load_slot at 1, store_slot at 1, put_block, bind at 1.
    rewrite (wrap_small (lo + 1)) by lia.
    cbn [heap vec errno]. rewrite Hh, decide_True by done.
    cbn [heap vec errno]. rewrite Hh, decide_True by done.
    cbn [heap vec errno].
    set (b1 := Block _ _ _ _).
    destruct (IH (Z.succ lo) v (<[h := b1]> hp) e h b1) as (m & Hrun & Hm).
    { apply lookup_insert_eq. }
    { lia. }
    { subst b1. simpl. apply (slot_in_below _ _ _ Hin). lia. }
    { lia. }
    exists m. split.
    + rewrite Hrun. subst b1. simpl. by rewrite insert_insert_eq.
    + intros j. rewrite Hm. subst b1. simpl. rewrite !lookup_partial_alter.
      repeat case_decide; try lia; try done. by subst.
Qed.

Lemma vec_remove_shift_at_allocated i s h b :
  allocated s h b →
  0 ≤ i < hdr_len b →
  hdr_len b < 2 ^ size_bits →
  stored b →
  ∃ m, vec_remove_shift_at i s =
         Ret (tt, State (Some h)
                    (<[h := Block (blk_size b) (hdr_len b - 1) (hdr_cap b) m]> (heap s))
                    (errno s)) ∧
       ∀ j, m !! j = if decide (i ≤ j < hdr_len b - 1)
                     then elems b !! (j + 1) else elems b !! j.
Proof.
  pose proof sizeof_T_pos.
  intros (Hv & Hh & Hsz) Hi Hl Hst. destruct s as [v hp e]; simpl in *; subst.
  unfold vec_remove_shift_at, for_range.
  rewrite (wrap_small i) by lia.
  unfold vec_len, vec__has_header, vec__get_header, load_len, store_len,
    header, put_block, VEC_ASSERT, bind, ret. sim.
  rewrite (wrap_small (hdr_len b - 1)) by lia.
  set (b0 := Block _ (hdr_len b - 1) _ _).
  destruct (shift_loop (Z.to_nat (hdr_len b - 1 - i)) i (Some h)
              (<[h := b0]> hp) e h b0) as (m & Hrun & Hm).
  { apply lookup_insert_eq. }
  { lia. }
  { subst b0. simpl. unfold slot_in, stored in *. split; [lia|nia]. }
  { lia. }
  rewrite Z2Nat.id in Hrun, Hm by lia.
  exists m. split.
  - unfold bind in Hrun. rewrite Hrun. subst b0. simpl. by rewrite insert_insert_eq.
  - intros j. rewrite Hm. subst b0. simpl.
    replace (i + (hdr_len b - 1 - i)) with (hdr_len b - 1) by lia. done.
Qed.

(** C9: for an index below the length, [vec_remove_shift_at] returns with
    the length decremented, the capacity as it was, and every element
    behind the removed one moved one slot down: the elements are those of
    before without the one at the index, in the same order. *)
Theorem shift_remove_keeps_order i s h b :
  allocated s h b →
  block_ok b →
  stored b →
  0 ≤ i < hdr_len b →
  ∃ s', vec_remove_shift_at i s = Ret (tt, s') ∧
        vec_len s' = Ret (hdr_len b - 1, s') ∧
        vec_cap s' = Ret (hdr_cap b, s') ∧
        snapshot s' = delete (Z.to_nat i) (snapshot s).
Proof.
  intros Ha [Hl Hc] Hst Hi.
  destruct (vec_remove_shift_at_allocated i s h b) as (m & -> & Hm);
    [done | done | lia | done |].
  eexists. split; [done|].
  set (b' := Block _ _ _ _).
  assert (allocated (State (Some h) (<[h := b']> (heap s)) (errno s)) h b') as Ha'
    by (apply allocated_insert; apply Ha).
  rewrite (vec_len_allocated _ _ _ Ha'), (vec_cap_allocated _ _ _ Ha').
  rewrite (snapshot_allocated _ _ _ Ha'), (snapshot_allocated _ _ _ Ha).
  split_and!; try done.
  apply list_eq. intros k.
  rewrite list_lookup_delete, !contents_lookup.
  subst b'. simpl. rewrite Hm.
  repeat case_decide; try lia; try done.
  repeat f_equal. lia.
Qed.

(** ** Release *)

Lemma vec_deinit_null s : vec s = None → vec_deinit s = Ret (tt, s).
Proof. intros Hv. destruct s; simpl in *; subst. done. Qed.

Lemma vec_deinit_live s h b :
  vec s = Some h → heap s !! h = Some b →
  vec_deinit s = Ret (tt, State (Some h) (delete h (heap s)) (errno s)).
Proof.
  intros Hv Hh. destruct s; simpl in *; subst.
  unfold vec_deinit. unfold_prims. by sim.
Qed.

Lemma vec_deinit_dangling s : dangling s → vec_deinit s = Undef.
Proof.
  intros (h & Hv & Hh). destruct s; simpl in *; subst.
  unfold vec_deinit. unfold_prims. by sim.
Qed.

(** The loop of [vec_deinit_with]: the destructor runs on [n] slots from
    [lo] on; only the content of the block changes. *)
Lemma deinit_loop (f : T → T) (n : nat) :
  ∀ lo v (hp : gmap ptr (block T)) e h b,
    hp !! h = Some b →
    0 ≤ lo →
    sizeof_header + sizeof_T * (lo + Z.of_nat n) ≤ blk_size b →
    ∃ m, for_each (λ _vec_i, x <- load_slot h _vec_i ;;
                            store_slot h _vec_i (f <$> x))
                  (seqZ lo (Z.of_nat n)) (State v hp e)
         = Ret (tt, State v (<[h := Block (blk_size b) (hdr_len b) (hdr_cap b) m]> hp) e).
Proof.
  pose proof sizeof_T_pos.
  induction n as [|n IH]; intros lo v hp e h b Hh Hlo Hsz.
  - exists (elems b). by rewrite block_eta, insert_id by done.
  - rewrite seqZ_cons by lia. simpl for_each.
    replace (Z.pred (Z.of_nat (S n))) with (Z.of_nat n) by lia.
    rewrite bind_unfold.
    assert (slot_in (blk_size b) lo) by (unfold slot_in; split; [lia|nia]).
    unfold load_slot at 1, store_slot at 1, put_block, bind at 1.
    cbn [heap vec errno]. rewrite Hh, decide_True by done.
    cbn [heap vec errno]. rewrite Hh, decide_True by done.
    cbn [heap vec errno].
    set (b1 := Block _ _ _ _).
    destruct (IH (Z.succ lo) v (<[h := b1]> hp) e h b1) as (m & Hrun).
    { apply lookup_insert_eq. }
    { lia. }
    { subst b1. simpl. nia. }
    exists m. rewrite Hrun. subst b1. simpl. by rewrite insert_insert_eq.
Qed.

Lemma vec_deinit_with_live f s h b :
  allocated s h b → 0 ≤ hdr_len b → stored b →
  vec_deinit_with f s = Ret (tt, State (Some h) (delete h (heap s)) (errno s)).
Proof.
  intros (Hv & Hh & Hsz) Hl Hst. destruct s as [v hp e]; simpl in *; subst.
  unfold vec_deinit_with, for_range.
  destruct (deinit_loop f (Z.to_nat (hdr_len b)) 0 (Some h) hp e h b)
    as (m & Hrun); [done | lia | |].
  { rewrite Z2Nat.id by lia. apply Hst. }
  rewrite Z2Nat.id in Hrun by lia. unfold bind in Hrun.
  unfold vec__has_header, vec__get_header, load_len, header, VEC_FREE, bind, ret.
  sim. rewrite Z.sub_0_r, Hrun. sim. by rewrite delete_insert_eq.
Qed.

Lemma vec_deinit_with_null f s : vec s = None → vec_deinit_with f s = Ret (tt, s).
Proof. intros Hv. destruct s; simpl in *; subst. done. Qed.

Lemma vec_deinit_with_dangling f s : dangling s → vec_deinit_with f s = Undef.
Proof.
  intros (h & Hv & Hh). destruct s; simpl in *; subst.
  unfold vec_deinit_with. unfold_prims. by sim.
Qed.

(** C1, as the code has it: release frees the backing allocation but does
    not write the handle.  On an unallocated vector [vec_deinit] and
    [vec_deinit_with] do nothing, so there a second release is a no-op.  On
    an allocated vector they free the block and leave the handle pointing to
    it: [vec_len] and [vec_cap] then read freed storage and a second release
    frees the block twice, both undefined; only [vec_init] brings the vector
    back to length 0 and capacity 0. *)
Theorem deinit_frees_keeps_handle (f : T → T) s :
  vec_ok s →
  (∀ h b, allocated s h b → stored b) →
  ∃ s', vec_deinit s = Ret (tt, s') ∧
        vec_deinit_with f s = Ret (tt, s') ∧
        vec s' = vec s ∧
        (vec s = None → s' = s) ∧
        (∀ h, vec s = Some h →
              heap s' = delete h (heap s) ∧
              vec_len s' = Undef ∧ vec_cap s' = Undef ∧
              vec_deinit s' = Undef ∧ vec_deinit_with f s' = Undef) ∧
        ∃ s'', vec_init s' = Ret (tt, s'') ∧
               vec_len s'' = Ret (0, s'') ∧ vec_cap s'' = Ret (0, s'').
Proof.
  intros [Hv | (h & b & Ha & [Hl Hc])] Hst.
  - exists s. rewrite vec_deinit_null, vec_deinit_with_null by done.
    split_and!; try done.
    + intros h Hh. by rewrite Hv in Hh.
    + eexists. split; [done|]. by rewrite vec_len_null, vec_cap_null.
  - pose proof Ha as (Hv & Hh & Hsz).
    exists (State (Some h) (delete h (heap s)) (errno s)).
    rewrite (vec_deinit_live _ _ _ Hv Hh).
    rewrite (vec_deinit_with_live f _ _ _ Ha) by (lia || eauto).
    assert (dangling (State (Some h) (delete h (heap s)) (errno s))) as Hd.
    { exists h. simpl. split; [done|]. apply lookup_delete_eq. }
    split_and!; try done.
    + intros Hn. by rewrite Hv in Hn.
    + intros h' Hh'. rewrite Hv in Hh'. injection Hh' as <-.
      rewrite vec_len_dangling, vec_cap_dangling, vec_deinit_dangling,
        vec_deinit_with_dangling by done.
      done.
    + eexists. split; [done|]. by rewrite vec_len_null, vec_cap_null.
Qed.

(** ** The invariant along sequences of calls *)





(** What the primitives that return tell about the state. *)
Lemma vec__get_header_inv s h s' :
  vec__get_header s = Ret (h, s') → s' = s ∧ vec s = Some h.
Proof. unfold vec__get_header. destruct (vec s); [|done]. by intros [= -> ->]. Qed.

Lemma header_inv h s b s' :
  header h s = Ret (b, s') →
  s' = s ∧ heap s !! h = Some b ∧ sizeof_header ≤ blk_size b.
Proof.
  unfold header. destruct (heap s !! h); [|done]. case_decide; [|done].
  by intros [= -> ->].
Qed.

Lemma load_len_inv h s l s' :
  load_len h s = Ret (l, s') →
  s' = s ∧ ∃ b, heap s !! h = Some b ∧ sizeof_header ≤ blk_size b ∧ l = hdr_len b.
Proof.
  unfold load_len. intros (b & s1 & (-> & Hh & Hsz)%header_inv & [= <- <-])%bind_ret_inv.
  eauto.
Qed.

Lemma load_slot_inv h i s x s' : load_slot h i s = Ret (x, s') → s' = s.
Proof.
  unfold load_slot. destruct (heap s !! h); [|done]. case_decide; [|done].
  by intros [= _ ->].
Qed.

Lemma slot_addr_inv h i s r s' : slot_addr h i s = Ret (r, s') → s' = s.
Proof.
  unfold slot_addr. destruct (heap s !! h); [|done]. case_decide; [|done].
  by intros [= _ ->].
Qed.





(** What [vec_emplace] and [vec_try_emplace] do after growing. *)
Lemma last_addr_inv s r s' :
  (h <- vec__get_header ;; l <- load_len h ;;
   slot_addr h l ;; slot_addr h (l - 1)) s = Ret (r, s') →
  s' = s.
Proof.
  intros (h & s1 & (-> & _)%vec__get_header_inv & Hrest)%bind_ret_inv.
  apply bind_ret_inv in Hrest as (l & s2 & (-> & _)%load_len_inv & Hrest).
  apply bind_ret_inv in Hrest as (r1 & s3 & ->%slot_addr_inv & Hrest).
  by apply slot_addr_inv in Hrest.
Qed.



Lemma store_len_inv h v s s' :
  store_len h v s = Ret (tt, s') →
  ∃ b, heap s !! h = Some b ∧ sizeof_header ≤ blk_size b ∧
       s' = State (vec s)
                  (<[h := Block (blk_size b) v (hdr_cap b) (elems b)]> (heap s))
                  (errno s).
Proof.
  unfold store_len, put_block.
  intros (b & s1 & (-> & Hh & Hsz)%header_inv & [= <-])%bind_ret_inv. eauto.
Qed.







(** ** The fail-soft variants and [errno] *)

Lemma grow_short fail ok s h b :
  vec s = Some h → heap s !! h = Some b → ¬ sizeof_header ≤ blk_size b →
  vec__grow_or_fail fail ok s = Undef.
Proof.
  intros Hv Hh Hsz. destruct s; simpl in *; subst.
  unfold vec__grow_or_fail. unfold_prims. by sim.
Qed.

(** A growth step either does not run the failure block, and then it does
    not depend on it, does not stop the program and leaves [errno] alone,
    or it is the failure block. *)
Lemma grow_cases ok s :
  (∃ r, (∀ fail, vec__grow_or_fail fail ok s = r) ∧
        (r = Undef ∨ ∃ s', r = Ret (tt, s') ∧ errno s' = errno s)) ∨
  (∀ fail, vec__grow_or_fail fail ok s = fail s).
Proof.
  destruct (vec s) as [h|] eqn:Hv.
  - destruct (heap s !! h) as [b|] eqn:Hh.
    + destruct (decide (sizeof_header ≤ blk_size b)) as [Hsz|Hsz].
      * assert (allocated s h b) as Ha by done.
        destruct (decide (hdr_len b < hdr_cap b)) as [Hroom|Hfull].
        -- left. eexists. split.
           ++ intros fail. rewrite (grow_allocated _ _ _ _ _ Ha).
              by rewrite bool_decide_eq_true_2 by done.
           ++ right. by eexists.
        -- destruct ok.
           ++ left. eexists. split.
              ** intros fail. rewrite (grow_allocated _ _ _ _ _ Ha).
                 by rewrite bool_decide_eq_false_2 by done.
              ** simpl. case_decide; [right; by eexists | by left].
           ++ right. intros fail. rewrite (grow_allocated _ _ _ _ _ Ha).
              by rewrite bool_decide_eq_false_2 by done.
      * left. exists Undef. split; [|by left].
        intros fail. by eapply grow_short.
    + left. exists Undef. split; [|by left].
      intros fail. apply grow_dangling. by exists h.
  - destruct ok.
    + left. eexists. split.
      * intros fail. by rewrite (grow_null _ _ _ Hv).
      * simpl. case_decide; [right; by eexists | by left].
    + right. intros fail. by rewrite (grow_null _ _ _ Hv).
Qed.

(** What follows the growth step returns or is undefined. *)
Lemma write_last_cases v s :
  let c := (h <- vec__get_header ;; l <- load_len h ;;
            store_slot h (wrap (l - 1)) (Some v)) in
  c s = Undef ∨ ∃ s', c s = Ret (tt, s').
Proof.
  destruct s as [[h|] hp e]; unfold_prims; simpl; [|by left].
  destruct (hp !! h) as [b|] eqn:Hh; simpl; [|by left].
  case_decide; simpl; [|by left]. rewrite ?Hh; simpl.
  case_decide; [right; by eexists | by left].
Qed.

Lemma last_addr_cases s :
  let c := (h <- vec__get_header ;; l <- load_len h ;;
            slot_addr h l ;; slot_addr h (l - 1)) in
  c s = Undef ∨ ∃ r, c s = Ret (r, s).
Proof.
  destruct s as [[h|] hp e]; unfold_prims; simpl; [|by left].
  destruct (hp !! h) as [b|] eqn:Hh; simpl; [|by left].
  case_decide; simpl; [|by left]. rewrite ?Hh; simpl.
  case_decide; simpl; [|by left]. rewrite ?Hh; simpl.
  case_decide; [right; by eexists | by left].
Qed.

(** With [errno] different from [ENOMEM] on entry, [vec_try_push] is
    [vec_push] with the panic replaced by: nothing changes but [errno],
    which becomes [ENOMEM]. *)
Lemma vec_try_push_fresh_errno v ok s :
  errno s ≠ ENOMEM →
  vec_try_push v ok s =
    match vec_push v ok s with
    | Panic _ => Ret (tt, State (vec s) (heap s) ENOMEM)
    | r => r
    end.
Proof.
  intros He. unfold vec_try_push, vec_push. rewrite !bind_unfold.
  destruct (grow_cases ok s) as [(r & Hr & Herr) | Hf].
  - rewrite !Hr. destruct Herr as [-> | (s1 & -> & Herr)]; [done|].
    rewrite bind_unfold. unfold get_errno at 1.
    rewrite bool_decide_eq_true_2 by (by rewrite Herr).
    by destruct (write_last_cases v s1) as [-> | (s2 & ->)].
  - rewrite !Hf. unfold VEC_PANIC, set_errno. rewrite bind_unfold.
    unfold get_errno. simpl. by rewrite bool_decide_eq_false_2 by auto.
Qed.

(** With [errno] equal to [ENOMEM] on entry, [vec_try_push] never writes
    the value: it is the growth step alone. *)
Lemma vec_try_push_stale_errno v ok s :
  errno s = ENOMEM →
  vec_try_push v ok s = vec__grow_or_fail (set_errno ENOMEM) ok s.
Proof.
  intros He. unfold vec_try_push. rewrite bind_unfold.
  destruct (grow_cases ok s) as [(r & Hr & Herr) | Hf].
  - rewrite !Hr. destruct Herr as [-> | (s1 & -> & Herr)]; [done|].
    rewrite bind_unfold. unfold get_errno at 1.
    by rewrite bool_decide_eq_false_2 by (rewrite Herr; auto).
  - rewrite !Hf. unfold set_errno. rewrite bind_unfold.
    unfold get_errno. simpl. by rewrite bool_decide_eq_false_2 by auto.
Qed.

Lemma vec_try_emplace_fresh_errno ok s :
  errno s ≠ ENOMEM →
  vec_try_emplace ok s =
    match vec_emplace ok s with
    | Panic _ => Ret (NullRef, State (vec s) (heap s) ENOMEM)
    | r => r
    end.
Proof.
  intros He. unfold vec_try_emplace, vec_emplace. rewrite !bind_unfold.
  destruct (grow_cases ok s) as [(r & Hr & Herr) | Hf].
  - rewrite !Hr. destruct Herr as [-> | (s1 & -> & Herr)]; [done|].
    rewrite bind_unfold. unfold get_errno at 1.
    rewrite bool_decide_eq_true_2 by (by rewrite Herr).
    by destruct (last_addr_cases s1) as [-> | (r & ->)].
  - rewrite !Hf. unfold VEC_PANIC, set_errno. rewrite bind_unfold.
    unfold get_errno. simpl. by rewrite bool_decide_eq_false_2 by auto.
Qed.

Lemma vec_try_emplace_stale_errno ok s :
  errno s = ENOMEM →
  vec_try_emplace ok s =
    (vec__grow_or_fail (set_errno ENOMEM) ok ;; ret NullRef) s.
Proof.
  intros He. unfold vec_try_emplace. rewrite !bind_unfold.
  destruct (grow_cases ok s) as [(r & Hr & Herr) | Hf].
  - rewrite !Hr. destruct Herr as [-> | (s1 & -> & Herr)]; [done|].
    rewrite bind_unfold. unfold get_errno at 1.
    by rewrite bool_decide_eq_false_2 by (rewrite Herr; auto).
  - rewrite !Hf. unfold set_errno. rewrite bind_unfold.
    unfold get_errno. simpl. by rewrite bool_decide_eq_false_2 by auto.
Qed.

(** ** Pushes do return *)

Lemma cap_after_ge (n : nat) : Z.of_nat n ≤ cap_after n.
Proof.
  destruct n as [|n]; [done|]. unfold cap_after.
  destruct (decide (Z.of_nat (S n) = 1)) as [->|]; [done|].
  apply Z.log2_up_spec. lia.
Qed.

(** When the allocator succeeds and the byte count of twice the new length
    fits [size_t], one more push returns, and the block it leaves has room
    for its capacity. *)
Lemma vec_push_returns v vs s :
  pushed vs s →
  (∀ h b, allocated s h b → backed b) →
  sizeof_header + sizeof_T * (2 * (Z.of_nat (length vs) + 1)) < 2 ^ size_bits →
  ∃ s', vec_push v true s = Ret (tt, s') ∧ ∀ h b, allocated s' h b → backed b.
Proof.
  pose proof sizeof_T_pos. pose proof sizeof_header_pos.
  intros Hp Hback Hfit.
  assert (∀ (hp : gmap ptr (block T)) e h0 b0 h b,
            allocated (State (Some h0) (<[h0 := b0]> hp) e) h b → b = b0) as Hsame.
  { intros hp e h0 b0 h b (Hv & Hh & _). simpl in *. injection Hv as <-.
    rewrite lookup_insert_eq in Hh. by injection Hh. }
  destruct vs as [|x vs].
  - simpl in Hp. rewrite (vec_push_null _ _ _ Hp). simpl.
    rewrite (wrap_small (sizeof_header + sizeof_T)) by (simpl in Hfit; lia).
    rewrite decide_True by (unfold slot_in; lia).
    eexists. split; [done|]. intros h b ->%Hsame. unfold backed. simpl. lia.
  - remember (x :: vs) as l eqn:El.
    assert (l ≠ []) as Hne by (by subst).
    apply (pushed_nonempty _ _ Hne) in Hp
      as (h & b & Ha & Hlen & Hcap & Hcw & [Hst Hsz] & Hel).
    pose proof (Hback _ _ Ha) as Hb. unfold backed in Hb.
    pose proof (cap_after_ge (length l)) as Hge.
    rewrite (vec_push_allocated _ _ _ _ _ Ha) by lia.
    case_bool_decide as Hroom.
    + rewrite decide_True by (unfold slot_in; split; [lia|nia]).
      eexists. split; [done|]. intros h' b' ->%Hsame. unfold backed. simpl. lia.
    + assert (hdr_cap b = hdr_len b) as Hfull by lia.
      assert (0 < hdr_len b) by (subst l; simpl in Hlen; lia).
      simpl. rewrite (wrap_small (hdr_cap b * 2)) by nia.
      assert (alloc_size (hdr_cap b * 2) = sizeof_header + sizeof_T * (hdr_cap b * 2))
        as ->.
      { unfold alloc_size. rewrite (wrap_small (sizeof_T * _)) by nia.
        apply wrap_small. nia. }
      rewrite decide_True by (unfold slot_in; split; [lia|nia]).
      eexists. split; [done|]. intros h' b' ->%Hsame. unfold backed. simpl. lia.
Qed.

Lemma push_all_returns_from (ws : list T) :
  ∀ vs s,
    pushed vs s →
    (∀ h b, allocated s h b → backed b) →
    sizeof_header + sizeof_T * (2 * Z.of_nat (length vs + length ws)) < 2 ^ size_bits →
    ∃ s', push_all ((λ v, (v, true)) <$> ws) s = Ret (tt, s').
Proof.
  pose proof sizeof_T_pos.
  induction ws as [|w ws IH]; intros vs s Hp Hback Hfit.
  - by eexists.
  - simpl length in Hfit.
    destruct (vec_push_returns w vs s Hp Hback) as (s1 & Hpush & Hback1); [nia|].
    destruct (IH (vs ++ [w]) s1) as (s' & Hrun); [by eapply pushed_step|done| |].
    { rewrite length_app. simpl length. replace (length vs + 1 + length ws)%nat
        with (length vs + S (length ws))%nat by lia. done. }
    exists s'. rewrite fmap_cons. simpl. rewrite bind_unfold. simpl. by rewrite Hpush.
Qed.

(** Every call of a sequence of pushes onto a fresh vector returns, when
    the allocator always succeeds and the byte count for twice as many
    elements fits [size_t]. *)
Lemma push_all_returns (ws : list T) s0 :
  sizeof_header + sizeof_T * (2 * Z.of_nat (length ws)) < 2 ^ size_bits →
  ∃ s, (vec_init ;; push_all ((λ v, (v, true)) <$> ws)) s0 = Ret (tt, s).
Proof.
  intros Hfit. rewrite bind_unfold. simpl.
  apply (push_all_returns_from ws []); [done| |done].
  intros h b (Hv & _). done.
Qed.

(** ** [vec_emplace] *)

Lemma vec_emplace_allocated ok s h b :
  allocated s h b →
  vec_emplace ok s =
    let l' := wrap (hdr_len b + 1) in
    if bool_decide (hdr_len b < hdr_cap b) then
      if decide (addr_in (blk_size b) l' ∧ addr_in (blk_size b) (l' - 1)) then
        Ret (SlotRef h (l' - 1),
             State (Some h)
                   (<[h := Block (blk_size b) l' (hdr_cap b) (elems b)]> (heap s))
                   (errno s))
      else Undef
    else if ok then
      let c := wrap (hdr_cap b * 2) in
      if decide (addr_in (alloc_size c) l' ∧ addr_in (alloc_size c) (l' - 1)) then
        Ret (SlotRef h (l' - 1),
             State (Some h)
                   (<[h := Block (alloc_size c) l' c
                              (filter (λ kv, slot_in (alloc_size c) kv.1) (elems b))]>
                      (heap s))
                   (errno s))
      else Undef
    else Panic "vec_emplace out of memory".
Proof.
  pose proof sizeof_T_pos.
  intros Ha. pose proof Ha as (Hv & Hh & Hsz).
  unfold vec_emplace. rewrite bind_unfold, (grow_allocated _ _ _ _ _ Ha).
  assert (∀ sz i, addr_in sz i ∧ addr_in sz (i - 1) → sizeof_header ≤ sz) as Hhdr.
  { intros sz i [[? ?] [? ?]]. nia. }
  set (l' := wrap (hdr_len b + 1)).
  case_bool_decide; simpl.
  - unfold_prims. sim. fold l'.
    destruct (decide (addr_in (blk_size b) l')) as [Hin1|Hin1];
      [|by rewrite decide_False by tauto].
    simpl. sim.
    destruct (decide (addr_in (blk_size b) (l' - 1))) as [Hin2|Hin2];
      [|by rewrite decide_False by tauto].
    by rewrite decide_True by done.
  - destruct ok; [|done]. simpl. case_decide as Hfit; simpl.
    + unfold_prims. sim. fold l'.
      set (sz := alloc_size _).
      destruct (decide (addr_in sz l')) as [Hin1|Hin1];
        [|by rewrite decide_False by tauto].
      simpl. sim.
      destruct (decide (addr_in sz (l' - 1))) as [Hin2|Hin2];
        [|by rewrite decide_False by tauto].
      by rewrite decide_True by done.
    + rewrite decide_False; [done|]. intros ?%Hhdr. done.
Qed.

(** The companion of [slot_in_after_overflow] for the address that
    [vec_emplace] computes. *)
Lemma addr_in_after_overflow c :
  2 ^ (size_bits - 1) ≤ c < 2 ^ size_bits →
  ¬ (addr_in (alloc_size (wrap (c * 2))) (wrap (c + 1)) ∧
     addr_in (alloc_size (wrap (c * 2))) (wrap (c + 1) - 1)).
Proof.
  intros Hc [[H1 H2] [H3 H4]]. pose proof pow_size_half. pose proof pow_half_pos.
  destruct (decide (c + 1 < 2 ^ size_bits)).
  - rewrite (wrap_small (c + 1)) in * by lia.
    apply (slot_in_after_overflow c Hc). split; [lia|done].
  - assert (wrap (c + 1) = 0) as E.
    { replace (c + 1) with (2 ^ size_bits) by lia. unfold wrap.
      apply Z.mod_same. lia. }
    rewrite E in H3. lia.
Qed.

(** [vec_emplace] moves the capacity as [vec_push] does. *)
Lemma emplace_capacity_doubles ok s r s' :
  vec_ok s →
  vec_emplace ok s = Ret (r, s') →
  ∃ l c, vec_len s = Ret (l, s) ∧ vec_cap s = Ret (c, s) ∧
         vec_cap s' =
           Ret ((if decide (vec s = None) then 1
                 else if decide (l = c) then c * 2 else c), s').
Proof.
  pose proof pow_size_half. pose proof pow_half_pos.
  intros [Hv | (h & b & Ha & [Hl Hc])] Hrun.
  - exists 0, 0. rewrite vec_len_null, vec_cap_null by done.
    rewrite decide_True by done. split_and!; try done.
    unfold vec_emplace in Hrun.
    apply bind_ret_inv in Hrun as ([] & s1 & Hg & ->%last_addr_inv).
    rewrite (grow_null _ _ _ Hv) in Hg. destruct ok; [|done]. simpl in Hg.
    case_decide; [|done]. injection Hg as <-.
    erewrite vec_cap_allocated; [|by apply allocated_insert]. done.
  - exists (hdr_len b), (hdr_cap b).
    rewrite (vec_len_allocated _ _ _ Ha), (vec_cap_allocated _ _ _ Ha).
    split_and!; try done.
    rewrite decide_False by (destruct Ha as [-> _]; done).
    rewrite (vec_emplace_allocated _ _ _ _ Ha) in Hrun. simpl in Hrun.
    assert (∀ sz i, addr_in sz i ∧ addr_in sz (i - 1) → sizeof_header ≤ sz) as Hhdr.
    { pose proof sizeof_T_pos. intros sz i [[? ?] [? ?]]. nia. }
    case_bool_decide as Hroom.
    + case_decide as Hin; [|done]. injection Hrun as _ <-.
      rewrite decide_False by lia.
      erewrite vec_cap_allocated; [|apply allocated_insert; simpl; apply Ha].
      done.
    + destruct ok; [|done]. case_decide as Hin; [|done]. injection Hrun as _ <-.
      assert (hdr_len b = hdr_cap b) as Hfull by lia.
      rewrite decide_True by done.
      assert (hdr_cap b < 2 ^ (size_bits - 1)) as Hhalf.
      { destruct (decide (hdr_cap b < 2 ^ (size_bits - 1))); [done|].
        exfalso. eapply (addr_in_after_overflow (hdr_cap b)); [lia|].
        by rewrite <- Hfull at 2 4. }
      erewrite vec_cap_allocated;
        [|apply allocated_insert; simpl; by eapply Hhdr].
      simpl. by rewrite wrap_small by lia.
Qed.

(** ** Where the doubling overflows

    The bound on the number of calls in [invariant_along_calls] cannot be
    dropped.  With one-byte elements, reserve [2 ^ (size_bits - 1)] slots,
    fill them with [vec_emplace], let one [vec_try_push] fail, so that
    [errno] is [ENOMEM], and call [vec_try_push] again with an allocator
    that succeeds: the capacity doubles to 0 in [size_t], the block is
    reallocated to a bare header, the length becomes
    [2 ^ (size_bits - 1) + 1], and because of the stale [errno] nothing is
    written, so the call returns. *)

Lemma run_app (ops1 ops2 : list (op (T := T))) s :
  run (ops1 ++ ops2) s = (run ops1 ;; run ops2) s.
Proof.
  revert s. induction ops1 as [|o ops1 IH]; intros s; [done|].
  simpl. rewrite !bind_unfold. destruct (run_op o s) as [[[] s1]| | |]; try done.
Qed.

Lemma run_emplaces (k : nat) :
  ∀ s h b,
    allocated s h b →
    0 ≤ hdr_len b →
    hdr_len b + Z.of_nat k ≤ hdr_cap b →
    hdr_cap b < 2 ^ size_bits →
    backed b →
    run (replicate k (OpEmplace true)) s
      = Ret (tt, State (Some h)
                   (<[h := Block (blk_size b) (hdr_len b + Z.of_nat k) (hdr_cap b)
                              (elems b)]> (heap s))
                   (errno s)).
Proof.
  pose proof sizeof_T_pos.
  induction k as [|k IH]; intros s h b Ha Hl Hk Hc Hb.
  - destruct Ha as (Hv & Hh & _). destruct s; simpl in *; subst.
    by rewrite Z.add_0_r, block_eta, insert_id.
  - unfold backed in Hb. simpl. rewrite !bind_unfold.
    rewrite (vec_emplace_allocated _ _ _ _ Ha). simpl.
    rewrite bool_decide_eq_true_2 by lia.
    rewrite (wrap_small (hdr_len b + 1)) by lia.
    rewrite decide_True by (unfold addr_in; split; split; (lia || nia)).
    simpl. set (b1 := Block _ _ _ _).
    rewrite (IH _ h b1); subst b1; simpl.
    + rewrite insert_insert_eq. do 5 f_equal. lia.
    + apply allocated_insert. apply Ha.
    + lia.
    + lia.
    + done.
    + done.
Qed.

Lemma overflow_breaks_invariant (v : T) s0 :
  sizeof_T = 1 →
  sizeof_header + 2 ^ (size_bits - 1) < 2 ^ size_bits →
  ∃ s, run ([OpInit; OpReserve (2 ^ (size_bits - 1)) true]
            ++ replicate (Z.to_nat (2 ^ (size_bits - 1))) (OpEmplace true)
            ++ [OpTryPush v false; OpTryPush v true]) s0 = Ret (tt, s) ∧
       vec s ≠ None ∧
       vec_len s = Ret (2 ^ (size_bits - 1) + 1, s) ∧
       vec_cap s = Ret (0, s).
Proof.
  intros HT Hfit.
  pose proof pow_size_half as Hhalf. pose proof pow_half_pos.
  pose proof sizeof_header_pos.
  set (K := 2 ^ (size_bits - 1)) in *.
  assert (wrap K = K) as HwK by (apply wrap_small; lia).
  assert (alloc_size K = sizeof_header + K) as HszK.
  { unfold alloc_size. rewrite HT, Z.mul_1_l, HwK. apply wrap_small. lia. }
  (* vec_init, vec_reserve *)
  assert (run [OpInit; OpReserve K true] s0
          = Ret (tt, State (Some (fresh (dom (heap s0))))
                       (<[fresh (dom (heap s0)) := Block (sizeof_header + K) 0 K ∅]>
                          (heap s0))
                       (errno s0))) as Hres.
  { change (run [OpInit; OpReserve K true] s0)
      with ((vec_init ;; vec_reserve K true ;; ret tt) s0).
    rewrite bind_unfold. unfold vec_init. cbv beta iota.
    rewrite bind_unfold. unfold vec_reserve.
    rewrite reserve_null by (simpl; (done || lia)).
    rewrite HwK, HszK. simpl. by rewrite decide_True by lia. }
  set (h := fresh (dom (heap s0))) in *.
  set (s1 := State (Some h) _ _) in Hres.
  (* the emplaces *)
  assert (allocated s1 h (Block (sizeof_header + K) 0 K ∅)) as Ha1
    by (apply allocated_insert; simpl; lia).
  pose proof (run_emplaces (Z.to_nat K) s1 h _ Ha1) as Hfill.
  simpl in Hfill. rewrite Z2Nat.id, insert_insert_eq in Hfill by lia.
  specialize (Hfill ltac:(lia) ltac:(lia) ltac:(lia)).
  rewrite Z.add_0_l in Hfill.
  assert (backed (Block (T := T) (sizeof_header + K) 0 K ∅)) as Hb
    by (unfold backed; simpl; lia).
  specialize (Hfill Hb).
  set (s2 := State (Some h) _ _) in Hfill.
  assert (allocated s2 h (Block (sizeof_header + K) K K ∅)) as Ha2
    by (apply allocated_insert; simpl; lia).
  (* the failing vec_try_push *)
  assert (vec_try_push v false s2 = Ret (tt, State (vec s2) (heap s2) ENOMEM)) as Hfail.
  { unfold vec_try_push. rewrite bind_unfold, (grow_allocated _ _ _ _ _ Ha2).
    simpl. rewrite bool_decide_eq_false_2 by lia. simpl.
    rewrite bind_unfold. simpl. by rewrite bool_decide_eq_false_2 by auto. }
  set (s3 := State (vec s2) (heap s2) ENOMEM) in Hfail.
  assert (allocated s3 h (Block (sizeof_header + K) K K ∅)) as Ha3 by apply Ha2.
  (* the vec_try_push that overflows *)
  assert (wrap (K * 2) = 0) as Hdbl.
  { replace (K * 2) with (2 ^ size_bits) by lia. unfold wrap.
    apply Z.mod_same. lia. }
  assert (alloc_size 0 = sizeof_header) as Hsz0.
  { unfold alloc_size. rewrite Z.mul_0_r. unfold wrap at 2.
    rewrite Z.mod_0_l, Z.add_0_r by lia. apply wrap_small. lia. }
  eexists. split_and!.
  - rewrite app_assoc, run_app, bind_unfold, run_app, bind_unfold, Hres, Hfill.
    change (run [OpTryPush v false; OpTryPush v true] s2)
      with ((vec_try_push v false ;; vec_try_push v true ;; ret tt) s2).
    rewrite bind_unfold, Hfail, bind_unfold.
    rewrite (vec_try_push_stale_errno v true s3) by done.
    rewrite (grow_allocated _ _ _ _ _ Ha3).
    cbn [hdr_len hdr_cap]. rewrite bool_decide_eq_false_2 by lia.
    cbv zeta. rewrite Hdbl, Hsz0, decide_True by lia. done.
  - done.
  - erewrite vec_len_allocated; [|apply allocated_insert; simpl; lia].
    simpl. by rewrite wrap_small by lia.
  - erewrite vec_cap_allocated; [|apply allocated_insert; simpl; lia]. done.
Qed.

(** ** [vec_pop] and [vec_clear] *)

Lemma vec_pop_allocated s h b :
  allocated s h b →
  0 < hdr_len b < 2 ^ size_bits →
  vec_pop s =
    Ret (tt, State (Some h)
               (<[h := Block (blk_size b) (hdr_len b - 1) (hdr_cap b) (elems b)]>
                  (heap s))
               (errno s)).
Proof.
  intros (Hv & Hh & Hsz) Hl. destruct s; simpl in *; subst.
  unfold vec_pop. unfold_prims. sim. by rewrite wrap_small by lia.
Qed.

Lemma vec_clear_allocated s h b :
  allocated s h b →
  vec_clear s =
    Ret (tt, State (Some h)
               (<[h := Block (blk_size b) 0 (hdr_cap b) (elems b)]> (heap s))
               (errno s)).
Proof.
  intros (Hv & Hh & Hsz). destruct s; simpl in *; subst.
  unfold vec_clear. unfold_prims. by sim.
Qed.

(** X1: on a vector that is not empty [vec_pop] returns with the length
    decremented and the capacity as it was; the elements before the last
    stay, and nothing is freed or overwritten: the block keeps its size and
    every slot its content, the popped one included. *)
Theorem pop_drops_last s h b :
  allocated s h b →
  block_ok b →
  0 < hdr_len b →
  ∃ s' b', vec_pop s = Ret (tt, s') ∧
           allocated s' h b' ∧
           blk_size b' = blk_size b ∧ elems b' = elems b ∧
           vec_len s' = Ret (hdr_len b - 1, s') ∧
           vec_cap s' = Ret (hdr_cap b, s') ∧
           snapshot s' = take (Z.to_nat (hdr_len b - 1)) (snapshot s).
Proof.
  intros Ha [Hl Hc] Hpos.
  rewrite (vec_pop_allocated _ _ _ Ha) by lia.
  eexists _, _. split; [done|].
  set (b' := Block _ _ _ _).
  assert (allocated (State (Some h) (<[h := b']> (heap s)) (errno s)) h b') as Ha'
    by (apply allocated_insert; apply Ha).
  rewrite (vec_len_allocated _ _ _ Ha'), (vec_cap_allocated _ _ _ Ha').
  rewrite (snapshot_allocated _ _ _ Ha'), (snapshot_allocated _ _ _ Ha).
  split_and!; try done.
  apply list_eq. intros k. rewrite lookup_take, !contents_lookup.
  subst b'. simpl. repeat case_decide; try lia; done.
Qed.

(** X2: the index is checked, never clamped.  For an index that is not
    below the length (a negative argument is converted to [size_t] and is
    such an index) each of the four removals fails its assertion, with the
    message of the source ([vec_remove_shift_at_with] carries the message
    of the swap variant); none of them returns or touches the vector. *)
Theorem index_out_of_bounds_aborts s l i (f : T → T) :
  vec_len s = Ret (l, s) →
  l ≤ wrap i →
  vec_remove_swap_at i s = AssertFail "vec_remove_swap_at out of bounds" ∧
  vec_remove_shift_at i s = AssertFail "vec_remove_shift_at out of bounds" ∧
  vec_remove_swap_at_with i f s
    = AssertFail "vec_remove_swap_at_with out of bounds" ∧
  vec_remove_shift_at_with i f s
    = AssertFail "vec_remove_swap_at_with out of bounds".
Proof.
  intros Hlen Hi.
  unfold vec_remove_swap_at, vec_remove_shift_at, vec_remove_swap_at_with,
    vec_remove_shift_at_with.
  rewrite !bind_unfold, !Hlen, !bind_unfold. unfold VEC_ASSERT.
  by rewrite !bool_decide_eq_false_2 by lia.
Qed.

(** X3: a push that returns, followed by [vec_pop], gives back the length
    and the elements of before.  The capacity stays where the push left it,
    and the handle stays allocated, also when the vector was unallocated
    before. *)
Theorem push_pop_restores v ok s s1 :
  vec_ok s →
  vec_push v ok s = Ret (tt, s1) →
  ∃ s2 l c, vec_pop s1 = Ret (tt, s2) ∧
            vec_len s = Ret (l, s) ∧
            vec_len s2 = Ret (l, s2) ∧
            snapshot s2 = snapshot s ∧
            vec_cap s1 = Ret (c, s1) ∧
            vec_cap s2 = Ret (c, s2) ∧
            0 < c ∧
            vec s2 = vec s1 ∧ vec s2 ≠ None.
Proof.
  pose proof pow_size_half. pose proof pow_half_pos.
  intros [Hv | (h & b & Ha & [Hl Hc])] Hpush.
  - rewrite (vec_push_null _ _ _ Hv) in Hpush.
    destruct ok; [|done]. simpl in Hpush. case_decide as Hin; [|done].
    injection Hpush as <-.
    set (b1 := Block _ 1 1 _).
    assert (allocated (State (Some (fresh (dom (heap s)))) (<[fresh (dom (heap s)) := b1]> (heap s))
                             (errno s)) (fresh (dom (heap s))) b1) as Ha1.
    { apply allocated_insert. by eapply slot_in_header. }
    rewrite (vec_pop_allocated _ _ _ Ha1) by (simpl; lia).
    rewrite (vec_cap_allocated _ _ _ Ha1). simpl. rewrite insert_insert_eq.
    set (b2 := Block _ _ _ _).
    eexists _, 0, 1. split; [done|].
    assert (allocated (State (Some (fresh (dom (heap s)))) (<[fresh (dom (heap s)) := b2]> (heap s))
                             (errno s)) (fresh (dom (heap s))) b2) as Ha2.
    { apply allocated_insert. by eapply slot_in_header. }
    rewrite vec_len_null by done.
    rewrite (vec_len_allocated _ _ _ Ha2), (vec_cap_allocated _ _ _ Ha2).
    rewrite (snapshot_allocated _ _ _ Ha2).
    split_and!; try done.
    unfold snapshot. by rewrite Hv.
  - rewrite (vec_push_allocated _ _ _ _ _ Ha) in Hpush by lia.
    assert (∃ sz c m,
              s1 = State (Some h)
                         (<[h := Block sz (hdr_len b + 1) c m]> (heap s)) (errno s) ∧
              sizeof_header ≤ sz ∧ 0 < c ∧ hdr_len b + 1 < 2 ^ size_bits ∧
              ∀ k : nat, Z.of_nat k < hdr_len b →
                         m !! Z.of_nat k = elems b !! Z.of_nat k)
      as (sz & c & m & -> & Hsz & Hcpos & Hlt & Hm).
    { case_bool_decide as Hroom.
      - case_decide as Hin; [|done]. injection Hpush as <-.
        rewrite wrap_small by lia. eexists _, _, _. split; [done|].
        split; [apply Ha|]. split; [lia|]. split; [lia|].
        intros k Hk. by rewrite lookup_insert_ne by lia.
      - destruct ok; [|done]. simpl in Hpush.
        case_decide as Hin; [|done]. injection Hpush as <-.
        assert (hdr_len b = hdr_cap b) as Hfull by lia.
        assert (hdr_cap b < 2 ^ (size_bits - 1)) as Hhalf.
        { destruct (decide (hdr_cap b < 2 ^ (size_bits - 1))); [done|].
          exfalso. eapply (slot_in_after_overflow (hdr_cap b)); [lia|].
          by rewrite <- Hfull at 2. }
        rewrite (wrap_small (hdr_len b + 1)) by lia.
        rewrite (wrap_small (hdr_cap b * 2)) by lia.
        rewrite (wrap_small (hdr_cap b * 2)) in Hin by lia.
        eexists _, _, _. split; [done|].
        split; [by eapply slot_in_header|]. split; [lia|]. split; [lia|]. intros k Hk.
        rewrite lookup_insert_ne by lia.
        destruct (elems b !! Z.of_nat k) as [x|] eqn:E.
        + apply map_lookup_filter_Some. split; [done|]. simpl.
          apply (slot_in_below _ _ _ Hin); lia.
        + apply map_lookup_filter_None. by left. }
    set (b1 := Block _ _ _ _).
    assert (allocated (State (Some h) (<[h := b1]> (heap s)) (errno s)) h b1) as Ha1
      by (by apply allocated_insert).
    rewrite (vec_pop_allocated _ _ _ Ha1) by (unfold b1; simpl; lia).
    rewrite (vec_cap_allocated _ _ _ Ha1). simpl. rewrite insert_insert_eq.
    set (b2 := Block _ _ _ _).
    assert (allocated (State (Some h) (<[h := b2]> (heap s)) (errno s)) h b2) as Ha2
      by (by apply allocated_insert).
    eexists _, (hdr_len b), c. split; [done|].
    rewrite (vec_len_allocated _ _ _ Ha).
    rewrite (vec_len_allocated _ _ _ Ha2), (vec_cap_allocated _ _ _ Ha2).
    rewrite (snapshot_allocated _ _ _ Ha2), (snapshot_allocated _ _ _ Ha).
    subst b2. simpl. replace (hdr_len b + 1 - 1) with (hdr_len b) by lia.
    split_and!; try done.
    apply list_eq. intros k. rewrite !contents_lookup. simpl.
    clear Hpush. case_decide; [|done]. by rewrite Hm.
Qed.

(** X4: [vec_clear] returns with length 0 and keeps the handle and the
    capacity: the storage is not released.  On an unallocated vector it
    changes nothing, and a second call changes nothing more. *)
Theorem clear_keeps_capacity s :
  vec_ok s →
  ∃ s' c, vec_clear s = Ret (tt, s') ∧
          vec s' = vec s ∧
          vec_cap s = Ret (c, s) ∧
          vec_cap s' = Ret (c, s') ∧
          vec_len s' = Ret (0, s') ∧
          snapshot s' = [] ∧
          (vec s = None → s' = s) ∧
          vec_clear s' = Ret (tt, s').
Proof.
  intros [Hv | (h & b & Ha & Hb)].
  - exists s, 0. rewrite vec_cap_null, vec_len_null by done.
    assert (vec_clear s = Ret (tt, s)) as ->.
    { destruct s; simpl in *; subst. done. }
    split_and!; try done. unfold snapshot. by rewrite Hv.
  - rewrite (vec_clear_allocated _ _ _ Ha).
    set (b' := Block _ _ _ _).
    assert (allocated (State (Some h) (<[h := b']> (heap s)) (errno s)) h b') as Ha'
      by (apply allocated_insert; apply Ha).
    eexists _, (hdr_cap b). split; [done|].
    rewrite (vec_cap_allocated _ _ _ Ha).
    rewrite (vec_cap_allocated _ _ _ Ha'), (vec_len_allocated _ _ _ Ha').
    rewrite (snapshot_allocated _ _ _ Ha'), (vec_clear_allocated _ _ _ Ha').
    simpl. rewrite insert_insert_eq.
    split_and!; try done.
    + symmetry. apply Ha.
    + destruct Ha as (Hv & _). intros Hn. by rewrite Hn in Hv.
Qed.

(** ** Appends within the capacity *)

Lemma push_all_within xs : ∀ s h b,
  allocated s h b →
  0 ≤ hdr_len b →
  hdr_len b + Z.of_nat (length xs) ≤ hdr_cap b →
  hdr_cap b < 2 ^ size_bits →
  backed b →
  ∃ m, push_all xs s =
         Ret (tt, State (Some h)
                    (<[h := Block (blk_size b) (hdr_len b + Z.of_nat (length xs))
                               (hdr_cap b) m]> (heap s))
                    (errno s)) ∧
       (∀ j, j < hdr_len b → m !! j = elems b !! j) ∧
       (∀ (k : nat) v, xs.*1 !! k = Some v →
                       m !! (hdr_len b + Z.of_nat k) = Some v).
Proof.
  pose proof sizeof_T_pos as HT.
  induction xs as [|[v ok] xs IH]; intros s h b Ha Hl Hn Hc Hbk.
  - exists (elems b). split_and!; [|done|done].
    destruct Ha as (Hv & Hh & _). destruct s; simpl in *; subst.
    rewrite Z.add_0_r, block_eta, insert_id by done. done.
  - remember (length ((v, ok) :: xs)) as n eqn:En.
    simpl in En. simpl push_all. rewrite bind_unfold.
    rewrite (vec_push_allocated _ _ _ _ _ Ha) by lia.
    rewrite bool_decide_eq_true_2 by lia.
    rewrite decide_True by (unfold backed in Hbk; split; nia).
    rewrite wrap_small by lia.
    set (b1 := Block (blk_size b) (hdr_len b + 1) (hdr_cap b)
                     (<[hdr_len b := v]> (elems b))).
    set (s1 := State (Some h) (<[h := b1]> (heap s)) (errno s)).
    assert (allocated s1 h b1) as Ha1 by (apply allocated_insert; apply Ha).
    destruct (IH s1 h b1 Ha1) as (m & Hrun & Hold & Hnew);
      [simpl; lia | simpl; lia | done | done |].
    exists m. split_and!.
    + rewrite Hrun. subst s1 b1. simpl. rewrite insert_insert_eq.
      do 4 f_equal. f_equal. lia.
    + intros j Hj. rewrite Hold by (simpl; lia). simpl.
      by rewrite lookup_insert_ne by lia.
    + intros [|k] x Hk; simpl in Hk.
      * injection Hk as <-. rewrite Z.add_0_r, Hold by (simpl; lia).
        simpl. by rewrite lookup_insert_eq.
      * rewrite <- (Hnew k x Hk). simpl. f_equal. lia.
Qed.

Lemma contents_app b m n (vs : list T) :
  0 ≤ hdr_len b →
  (∀ j, j < hdr_len b → m !! j = elems b !! j) →
  (∀ (k : nat) v, vs !! k = Some v → m !! (hdr_len b + Z.of_nat k) = Some v) →
  contents (Block n (hdr_len b + Z.of_nat (length vs)) (hdr_cap b) m)
  = contents b ++ (Some <$> vs).
Proof.
  intros Hl Hold Hnew. apply list_eq. intros k.
  rewrite contents_lookup. simpl.
  destruct (decide (Z.of_nat k < hdr_len b)) as [Hk|Hk].
  - rewrite lookup_app_l by (rewrite contents_length; lia).
    rewrite contents_lookup. rewrite !decide_True by lia. by rewrite Hold.
  - rewrite lookup_app_r by (rewrite contents_length; lia).
    rewrite contents_length, list_lookup_fmap.
    destruct (vs !! (k - Z.to_nat (hdr_len b))%nat) as [v|] eqn:E.
    + pose proof (lookup_lt_Some _ _ _ E).
      rewrite decide_True by lia. simpl. rewrite <- (Hnew _ _ E).
      do 2 f_equal. lia.
    + apply lookup_ge_None in E. by rewrite decide_False by lia.
Qed.

(** X5: appends that fit the capacity never ask the allocator.  On an
    allocated vector whose block backs its capacity, [n] pushes with
    [len + n ≤ cap] return whatever the allocator would answer, with the
    handle and the capacity unchanged and the values appended in order. *)
Theorem push_within_capacity xs s h b :
  allocated s h b →
  block_ok b →
  backed b →
  hdr_len b + Z.of_nat (length xs) ≤ hdr_cap b →
  ∃ s', push_all xs s = Ret (tt, s') ∧
        vec s' = Some h ∧
        dom (heap s') = dom (heap s) ∧
        errno s' = errno s ∧
        vec_cap s' = Ret (hdr_cap b, s') ∧
        vec_len s' = Ret (hdr_len b + Z.of_nat (length xs), s') ∧
        snapshot s' = snapshot s ++ (Some <$> xs.*1).
Proof.
  intros Ha [Hl Hc] Hbk Hn.
  destruct (push_all_within xs s h b Ha) as (m & -> & Hold & Hnew);
    [lia | done | lia | done |].
  eexists. split; [done|].
  set (b' := Block _ _ _ _).
  assert (allocated (State (Some h) (<[h := b']> (heap s)) (errno s)) h b') as Ha'
    by (apply allocated_insert; apply Ha).
  rewrite (vec_cap_allocated _ _ _ Ha'), (vec_len_allocated _ _ _ Ha').
  rewrite (snapshot_allocated _ _ _ Ha'), (snapshot_allocated _ _ _ Ha).
  split_and!; try done.
  - simpl. rewrite dom_insert_L.
    apply subseteq_union_1_L, singleton_subseteq_l, elem_of_dom.
    exists b. apply Ha.
  - subst b'. rewrite <- (length_fmap fst xs).
    apply contents_app; [lia | done | done].
Qed.

(** X6: reserving first makes the appends allocation free.  From any state,
    [vec_init], then [vec_reserve(K)] with a successful allocation, then up
    to [K] pushes: the program returns whatever the allocator would answer
    to the pushes; one block has been added to the heap, the capacity is
    [K] and the vector holds the values in order. *)
Theorem reserve_then_push K xs s0 :
  0 < K →
  sizeof_header + sizeof_T * K < 2 ^ size_bits →
  Z.of_nat (length xs) ≤ K →
  ∃ s h b, (vec_init ;; vec_reserve K true ;; push_all xs) s0 = Ret (tt, s) ∧
           heap s0 !! h = None ∧
           s = State (Some h) (<[h := b]> (heap s0)) (errno s0) ∧
           vec_cap s = Ret (K, s) ∧
           vec_len s = Ret (Z.of_nat (length xs), s) ∧
           snapshot s = Some <$> xs.*1.
Proof.
  pose proof sizeof_T_pos as HT. pose proof sizeof_header_pos as HH.
  intros HK Hfit Hn.
  assert (K < 2 ^ size_bits) as HK2 by nia.
  assert (alloc_size K = sizeof_header + sizeof_T * K) as Hsz.
  { unfold alloc_size. rewrite (wrap_small (sizeof_T * K)) by nia.
    by rewrite wrap_small by nia. }
  set (h := fresh (dom (heap s0))).
  assert (heap s0 !! h = None) as Hfresh
    by (apply not_elem_of_dom, is_fresh).
  set (b0 := Block (alloc_size K) 0 K (∅ : gmap Z T)).
  set (s1 := State (Some h) (<[h := b0]> (heap s0)) (errno s0)).
  assert ((vec_init ;; vec_reserve K true) s0 = Ret (tt, s1)) as Hres.
  { rewrite bind_unfold. unfold vec_init at 1. cbv beta iota.
    unfold vec_reserve. rewrite reserve_null; [|rewrite wrap_small; lia|done].
    simpl. rewrite wrap_small by lia.
    rewrite decide_True by (rewrite Hsz; nia). done. }
  assert (allocated s1 h b0) as Ha1.
  { apply allocated_insert. simpl. rewrite Hsz. nia. }
  destruct (push_all_within xs s1 h b0 Ha1) as (m & Hrun & Hold & Hnew);
    [simpl; lia | simpl; lia | simpl; lia | unfold backed; simpl; lia |].
  simpl in Hrun. rewrite insert_insert_eq in Hrun.
  eexists _, h, _. split.
  { change ((vec_init ;; vec_reserve K true ;; push_all xs) s0)
      with (match (vec_init ;; vec_reserve K true) s0 with
            | Ret (_, s') => push_all xs s'
            | Panic r => Panic r | AssertFail r => AssertFail r | Undef => Undef
            end).
    rewrite Hres. exact Hrun. }
  set (b' := Block _ _ _ _).
  assert (allocated (State (Some h) (<[h := b']> (heap s0)) (errno s0)) h b') as Ha'.
  { apply allocated_insert. simpl. rewrite Hsz. nia. }
  rewrite (vec_cap_allocated _ _ _ Ha'), (vec_len_allocated _ _ _ Ha').
  rewrite (snapshot_allocated _ _ _ Ha').
  split_and!; try done.
  subst b'. rewrite <- (length_fmap fst xs).
  exact (contents_app b0 m _ xs.*1 (Z.le_refl 0) Hold Hnew).
Qed.

(** X7: clearing keeps the storage for reuse.  After [vec_clear] on a
    consistent vector whose block backs its capacity, up to [cap] pushes
    return whatever the allocator would answer, and the vector then holds
    exactly the new values with the capacity of before. *)
Theorem clear_then_refill xs s h b :
  allocated s h b →
  block_ok b →
  backed b →
  Z.of_nat (length xs) ≤ hdr_cap b →
  ∃ s', (vec_clear ;; push_all xs) s = Ret (tt, s') ∧
        vec s' = Some h ∧
        dom (heap s') = dom (heap s) ∧
        vec_cap s' = Ret (hdr_cap b, s') ∧
        vec_len s' = Ret (Z.of_nat (length xs), s') ∧
        snapshot s' = Some <$> xs.*1.
Proof.
  intros Ha [Hl Hc] Hbk Hn.
  rewrite bind_unfold, (vec_clear_allocated _ _ _ Ha).
  set (b0 := Block (blk_size b) 0 (hdr_cap b) (elems b)).
  set (s1 := State (Some h) (<[h := b0]> (heap s)) (errno s)).
  assert (allocated s1 h b0) as Ha1 by (apply allocated_insert; apply Ha).
  destruct (push_all_within xs s1 h b0 Ha1) as (m & Hrun & Hold & Hnew);
    [simpl; lia | simpl; lia | simpl; lia | done |].
  simpl in Hrun. rewrite insert_insert_eq in Hrun. rewrite Hrun.
  eexists. split; [done|].
  set (b' := Block _ _ _ _).
  assert (allocated (State (Some h) (<[h := b']> (heap s)) (errno s)) h b') as Ha'
    by (apply allocated_insert; apply Ha).
  rewrite (vec_cap_allocated _ _ _ Ha'), (vec_len_allocated _ _ _ Ha').
  rewrite (snapshot_allocated _ _ _ Ha').
  split_and!; try done.
  - simpl. rewrite dom_insert_L.
    apply subseteq_union_1_L, singleton_subseteq_l, elem_of_dom.
    exists b. apply Ha.
  - subst b'. rewrite <- (length_fmap fst xs).
    exact (contents_app b0 m _ xs.*1 (Z.le_refl 0) Hold Hnew).
Qed.

(** ** [vec_try_reserve] *)



(** ** The variants that run a destructor *)

Lemma call_deinit_eq (f : T → T) h i v (hp : gmap ptr (block T)) e b :
  hp !! h = Some b →
  call_deinit f h i (State v hp e) =
    if decide (slot_in (blk_size b) i) then
      Ret (tt, State v
                 (<[h := Block (blk_size b) (hdr_len b) (hdr_cap b)
                            (partial_alter (λ _, f <$> elems b !! i) i (elems b))]> hp)
                 e)
    else Undef.
Proof.
  intros Hh. unfold call_deinit, load_slot, store_slot, put_block, bind.
  cbn [heap vec errno]. rewrite Hh. case_decide as Hin; [|done].
  cbn [heap vec errno]. by rewrite Hh, decide_True by done.
Qed.

(** The loop of [vec_clear_with]: the destructor runs once on each of the
    [n] slots from [lo] on, and on no other. *)
Lemma destroy_loop (f : T → T) (n : nat) :
  ∀ lo v (hp : gmap ptr (block T)) e h b,
    hp !! h = Some b →
    0 ≤ lo →
    sizeof_header + sizeof_T * (lo + Z.of_nat n) ≤ blk_size b →
    ∃ m, for_each (call_deinit f h) (seqZ lo (Z.of_nat n)) (State v hp e)
         = Ret (tt, State v (<[h := Block (blk_size b) (hdr_len b) (hdr_cap b) m]> hp) e) ∧
         ∀ j, m !! j = if decide (lo ≤ j < lo + Z.of_nat n)
                       then f <$> elems b !! j else elems b !! j.
Proof.
  pose proof sizeof_T_pos.
  induction n as [|n IH]; intros lo v hp e h b Hh Hlo Hsz.
  - exists (elems b). rewrite block_eta, insert_id by done. split; [done|].
    intros j. by rewrite decide_False by lia.
  - rewrite seqZ_cons by lia. simpl for_each.
    replace (Z.pred (Z.of_nat (S n))) with (Z.of_nat n) by lia.
    rewrite bind_unfold, (call_deinit_eq _ _ _ _ _ _ _ Hh).
    rewrite decide_True by (unfold slot_in; split; [lia|nia]).
    set (b1 := Block _ _ _ _).
    destruct (IH (Z.succ lo) v (<[h := b1]> hp) e h b1) as (m & Hrun & Hm).
    { apply lookup_insert_eq. }
    { lia. }
    { subst b1. simpl. nia. }
    exists m. split.
    + rewrite Hrun. subst b1. simpl. by rewrite insert_insert_eq.
    + intros j. rewrite Hm. subst b1. simpl. rewrite lookup_partial_alter.
      repeat case_decide; try lia; try done. by subst.
Qed.

(** X9: [vec_clear_with] runs the destructor once on each element below the
    length and on nothing else, then sets the length to 0; the handle, the
    block and the capacity stay. *)
Theorem clear_with_destroys_each (f : T → T) s h b :
  allocated s h b →
  0 ≤ hdr_len b →
  stored b →
  ∃ s' b', vec_clear_with f s = Ret (tt, s') ∧
           allocated s' h b' ∧
           dom (heap s') = dom (heap s) ∧
           errno s' = errno s ∧
           blk_size b' = blk_size b ∧
           vec_len s' = Ret (0, s') ∧
           vec_cap s' = Ret (hdr_cap b, s') ∧
           ∀ j, elems b' !! j = if decide (0 ≤ j < hdr_len b)
                                then f <$> elems b !! j else elems b !! j.
Proof.
  intros Ha Hl Hst. pose proof Ha as (Hv & Hh & Hsz).
  destruct s as [v hp e]; simpl in *; subst.
  destruct (destroy_loop f (Z.to_nat (hdr_len b)) 0 (Some h) hp e h b)
    as (m & Hrun & Hm); [done | lia | |].
  { rewrite Z2Nat.id by lia. apply Hst. }
  rewrite Z2Nat.id in Hrun, Hm by lia.
  assert (vec_clear_with f (State (Some h) hp e) =
          Ret (tt, State (Some h)
                     (<[h := Block (blk_size b) 0 (hdr_cap b) m]> hp) e)) as ->.
  { unfold vec_clear_with, for_range.
    unfold vec__has_header, vec__get_header, load_len, store_len, header,
      put_block, bind, ret. sim. rewrite Z.sub_0_r, Hrun. by sim. }
  set (b' := Block _ _ _ _).
  assert (allocated (State (Some h) (<[h := b']> hp) e) h b') as Ha'
    by (by apply allocated_insert).
  eexists _, b'. split; [done|].
  rewrite (vec_len_allocated _ _ _ Ha'), (vec_cap_allocated _ _ _ Ha').
  split_and!; try done.
  simpl. rewrite dom_insert_L.
  apply subseteq_union_1_L, singleton_subseteq_l, elem_of_dom. by exists b.
Qed.

Lemma vec_remove_swap_at_with_allocated i (f : T → T) s h b :
  allocated s h b →
  0 ≤ i < hdr_len b →
  hdr_len b < 2 ^ size_bits →
  slot_in (blk_size b) i →
  vec_remove_swap_at_with i f s =
    vec_remove_swap_at i
      (State (Some h)
             (<[h := Block (blk_size b) (hdr_len b) (hdr_cap b)
                        (partial_alter (λ _, f <$> elems b !! i) i (elems b))]>
                (heap s))
             (errno s)).
Proof.
  intros Ha Hi Hl Hin.
  set (b1 := Block _ _ _ _).
  assert (allocated (State (Some h) (<[h := b1]> (heap s)) (errno s)) h b1) as Ha1
    by (apply allocated_insert; apply Ha).
  rewrite (vec_remove_swap_at_allocated _ _ _ _ Ha1) by done.
  destruct Ha as (Hv & Hh & Hsz). destruct s as [v hp e]; simpl in *; subst.
  unfold vec_remove_swap_at_with.
  rewrite (wrap_small i) by lia.
  unfold call_deinit. unfold_prims. sim.
  rewrite (wrap_small (hdr_len b - 1)) by lia. sim.
  repeat (rewrite (decide_True (P := slot_in (blk_size b) i)) by done; sim).
  destruct (decide (slot_in (blk_size b) (hdr_len b - 1))) as [Hlast|Hlast];
    sim; [|done].
  repeat (rewrite (decide_True (P := slot_in (blk_size b) i)) by done; sim).
  done.
Qed.

(** X10: for an index below the length, [vec_remove_swap_at_with] is the
    destructor on the element at the index followed by
    [vec_remove_swap_at]: the destructor runs once, on the removed element
    and on no other, and the former last element, as it was, takes the
    place. *)
Theorem swap_remove_with_destroys_one i (f : T → T) s h b :
  allocated s h b →
  block_ok b →
  stored b →
  0 ≤ i < hdr_len b →
  ∃ s', vec_remove_swap_at_with i f s = Ret (tt, s') ∧
        (call_deinit f h i ;; vec_remove_swap_at i) s = Ret (tt, s') ∧
        vec_len s' = Ret (hdr_len b - 1, s') ∧
        vec_cap s' = Ret (hdr_cap b, s') ∧
        snapshot s' =
          <[Z.to_nat i := elems b !! (hdr_len b - 1)]>
            (take (Z.to_nat (hdr_len b - 1)) (snapshot s)) ∧
        vec_at (hdr_len b - 1) s'
        = Ret (if decide (i = hdr_len b - 1) then f <$> elems b !! i
               else elems b !! (hdr_len b - 1), s').
Proof.
  pose proof sizeof_T_pos.
  intros Ha [Hl Hc] Hst Hi.
  assert (slot_in (blk_size b) (hdr_len b - 1)) as Hlast
    by (unfold slot_in, stored in *; split; [lia|nia]).
  assert (slot_in (blk_size b) i) as Hin
    by (apply (slot_in_below _ _ _ Hlast); lia).
  rewrite (vec_remove_swap_at_with_allocated _ _ _ _ _ Ha Hi) by (done || lia).
  rewrite bind_unfold.
  assert (call_deinit f h i s =
          Ret (tt, State (Some h)
                     (<[h := Block (blk_size b) (hdr_len b) (hdr_cap b)
                                (partial_alter (λ _, f <$> elems b !! i) i (elems b))]>
                        (heap s)) (errno s))) as ->.
  { destruct Ha as (Hv & Hh & _). destruct s as [v hp e]; simpl in *; subst.
    by rewrite (call_deinit_eq _ _ _ _ _ _ _ Hh), decide_True by done. }
  set (b1 := Block _ _ _ _).
  assert (allocated (State (Some h) (<[h := b1]> (heap s)) (errno s)) h b1) as Ha1
    by (apply allocated_insert; apply Ha).
  rewrite (vec_remove_swap_at_allocated _ _ _ _ Ha1) by (simpl; lia).
  simpl. rewrite decide_True by done. rewrite insert_insert_eq.
  eexists. split; [done|]. split; [done|].
  set (b' := Block _ _ _ _).
  assert (allocated (State (Some h) (<[h := b']> (heap s)) (errno s)) h b') as Ha'
    by (apply allocated_insert; apply Ha).
  rewrite (vec_len_allocated _ _ _ Ha'), (vec_cap_allocated _ _ _ Ha').
  rewrite (snapshot_allocated _ _ _ Ha'), (snapshot_allocated _ _ _ Ha).
  split_and!; try done.
  - apply list_eq. intros k.
    rewrite list_lookup_insert, lookup_take, length_take, contents_length,
      !contents_lookup.
    subst b'. simpl. rewrite !lookup_partial_alter.
    repeat case_decide; try lia; done.
  - unfold vec_at, vec__get_header, load_slot, bind. simpl.
    rewrite lookup_insert_eq. subst b'. simpl.
    rewrite decide_True by done. rewrite !lookup_partial_alter.
    repeat case_decide; try lia; done.
Qed.

Lemma vec_remove_shift_at_with_allocated i (f : T → T) s h b :
  allocated s h b →
  0 ≤ i < hdr_len b →
  hdr_len b < 2 ^ size_bits →
  slot_in (blk_size b) i →
  vec_remove_shift_at_with i f s =
    vec_remove_shift_at i
      (State (Some h)
             (<[h := Block (blk_size b) (hdr_len b) (hdr_cap b)
                        (partial_alter (λ _, f <$> elems b !! i) i (elems b))]>
                (heap s))
             (errno s)).
Proof.
  intros (Hv & Hh & Hsz) Hi Hl Hin.
  destruct s as [v hp e]; simpl in *; subst.
  unfold vec_remove_shift_at_with, vec_remove_shift_at.
  rewrite (wrap_small i) by lia.
  unfold call_deinit.
  unfold vec_len, vec__has_header, vec__get_header, load_len, store_len,
    header, put_block, VEC_ASSERT, load_slot at 1, store_slot at 1, bind, ret.
  sim. rewrite (wrap_small (hdr_len b - 1)) by lia. sim.
  repeat (rewrite (decide_True (P := slot_in (blk_size b) i)) by done; sim).
  done.
Qed.

(** X11: for an index below the length, [vec_remove_shift_at_with] is the
    destructor on the element at the index followed by
    [vec_remove_shift_at]: the destructor runs once, on the removed
    element, and the others move down unchanged and in order. *)
Theorem shift_remove_with_destroys_one i (f : T → T) s h b :
  allocated s h b →
  block_ok b →
  stored b →
  0 ≤ i < hdr_len b →
  ∃ s', vec_remove_shift_at_with i f s = Ret (tt, s') ∧
        (call_deinit f h i ;; vec_remove_shift_at i) s = Ret (tt, s') ∧
        vec_len s' = Ret (hdr_len b - 1, s') ∧
        vec_cap s' = Ret (hdr_cap b, s') ∧
        snapshot s' = delete (Z.to_nat i) (snapshot s).
Proof.
  pose proof sizeof_T_pos.
  intros Ha [Hl Hc] Hst Hi.
  assert (slot_in (blk_size b) i) as Hin
    by (unfold slot_in, stored in *; split; [lia|nia]).
  rewrite (vec_remove_shift_at_with_allocated _ _ _ _ _ Ha Hi) by (done || lia).
  rewrite bind_unfold.
  assert (call_deinit f h i s =
          Ret (tt, State (Some h)
                     (<[h := Block (blk_size b) (hdr_len b) (hdr_cap b)
                                (partial_alter (λ _, f <$> elems b !! i) i (elems b))]>
                        (heap s)) (errno s))) as ->.
  { destruct Ha as (Hv & Hh & _). destruct s as [v hp e]; simpl in *; subst.
    by rewrite (call_deinit_eq _ _ _ _ _ _ _ Hh), decide_True by done. }
  set (b1 := Block _ _ _ _).
  assert (allocated (State (Some h) (<[h := b1]> (heap s)) (errno s)) h b1) as Ha1
    by (apply allocated_insert; apply Ha).
  destruct (vec_remove_shift_at_allocated i _ h b1 Ha1) as (m & -> & Hm);
    [simpl; lia | simpl; lia | done |].
  simpl. rewrite insert_insert_eq.
  eexists. split; [done|]. split; [done|].
  set (b' := Block _ _ _ _).
  assert (allocated (State (Some h) (<[h := b']> (heap s)) (errno s)) h b') as Ha'
    by (apply allocated_insert; apply Ha).
  rewrite (vec_len_allocated _ _ _ Ha'), (vec_cap_allocated _ _ _ Ha').
  rewrite (snapshot_allocated _ _ _ Ha'), (snapshot_allocated _ _ _ Ha).
  split_and!; try done.
  apply list_eq. intros k.
  rewrite list_lookup_delete, !contents_lookup.
  subst b'. simpl. rewrite Hm. simpl. rewrite !lookup_partial_alter.
  repeat case_decide; try lia; try done.
  repeat f_equal. lia.
Qed.

(** ** The traversal *)

Lemma read_len_at {A} h sz l (k : ptr → Z → M A) s :
  header_at h sz l s → sizeof_header ≤ sz →
  (h' <- vec__get_header ;; l' <- load_len h' ;; k h' l') s = k h l s.
Proof.
  intros (Hv & b & Hh & <- & <-) Hsz.
  unfold vec__get_header, load_len, header, bind, ret.
  by rewrite Hv, Hh, decide_True by done.
Qed.

Lemma next_addr_at {A} h sz l i (k : ref → M A) s :
  header_at h sz l s → addr_in sz i →
  (h' <- vec__get_header ;; p <- slot_addr h' i ;; k p) s = k (SlotRef h i) s.
Proof.
  intros (Hv & b & Hh & <- & <-) Hin.
  unfold vec__get_header, slot_addr, bind.
  by rewrite Hv, Hh, decide_True by done.
Qed.

(** The inner loop with [n] elements left and enough fuel: the body runs at
    [i], [i+1], ..., [len-1], each time on the address of that slot. *)
Lemma for_each_steps_visit (body : ref → Z → M unit) h sz l :
  keeps_header h sz l body →
  sizeof_header ≤ sz →
  addr_in sz l →
  l + 1 < 2 ^ size_bits →
  ∀ (n : nat) i fuel s,
    header_at h sz l s →
    0 ≤ i →
    i + Z.of_nat n = l →
    (n < fuel)%nat →
    for_each_steps fuel body i (SlotRef h i) s =
      (for_each (λ j, body (SlotRef h j) j) (seqZ i (Z.of_nat n)) ;; ret true) s.
Proof.
  pose proof sizeof_T_pos as HT.
  intros Hkeep Hsz Hend Hl n.
  induction n as [|n IH]; intros i fuel s Hs Hi Hn Hf;
    (destruct fuel as [|fuel]; [lia|]); simpl for_each_steps.
  - rewrite (read_len_at h sz l) by done.
    rewrite bool_decide_eq_false_2 by lia.
    rewrite wrap_small by lia. by rewrite bool_decide_eq_false_2 by lia.
  - rewrite (read_len_at h sz l) by done.
    rewrite bool_decide_eq_true_2 by lia.
    rewrite seqZ_cons by lia. simpl for_each.
    replace (Z.pred (Z.of_nat (S n))) with (Z.of_nat n) by lia.
    rewrite !bind_unfold.
    destruct (body (SlotRef h i) i s) as [[[] s1]| | |] eqn:Hb; try done.
    cbv zeta. rewrite (wrap_small (i + 1)) by lia.
    pose proof (Hkeep _ _ _ _ Hs Hb) as Hs1.
    assert (addr_in sz (i + 1)) as Hnext
      by (unfold addr_in in *; split; [lia|nia]).
    rewrite (next_addr_at h sz l _ _ _ Hs1 Hnext).
    rewrite (IH (i + 1) fuel s1) by (done || lia).
    by rewrite bind_unfold.
Qed.

Lemma vec_for_each_index_start fuel (body : ref → Z → M unit) s h :
  vec s = Some h →
  vec_for_each_index fuel body s = for_each_steps fuel body 0 (SlotRef h 0) s.
Proof.
  intros Hv. unfold vec_for_each_index, vec__has_header, handle_ref, bind.
  cbv beta. rewrite Hv. cbv beta iota. by rewrite Hv.
Qed.

Lemma allocated_header_at s h b :
  allocated s h b → header_at h (blk_size b) (hdr_len b) s.
Proof. intros (Hv & Hh & _). split; [done|]. by exists b. Qed.

(** X12: the empty vector, unallocated or of length 0.  The traversals
    run no body and [vec_clear_with] runs no destructor: they return with
    the state unchanged, whatever the body or the destructor would do.
    [vec_pop] fails its assertion instead of returning. *)
Theorem empty_runs_no_body fuel (body : ref → Z → M unit) (body' : ref → M unit)
    (f : T → T) s :
  vec_ok s →
  vec_len s = Ret (0, s) →
  vec_for_each_index (S fuel) body s = Ret (true, s) ∧
  vec_for_each (S fuel) body' s = Ret (true, s) ∧
  vec_clear_with f s = Ret (tt, s) ∧
  vec_pop s = AssertFail "vec_pop empty".
Proof.
  pose proof pow_size_half. pose proof pow_half_pos.
  intros Hok Hlen.
  assert (vec_pop s = AssertFail "vec_pop empty") as Hpop.
  { unfold vec_pop. by rewrite bind_unfold, Hlen. }
  destruct Hok as [Hv | (h & b & Ha & Hb)].
  - destruct s; simpl in *; subst. done.
  - rewrite (vec_len_allocated _ _ _ Ha) in Hlen. injection Hlen as Hl.
    pose proof Ha as (Hv & Hh & Hsz).
    assert (∀ bd, vec_for_each_index (S fuel) bd s = Ret (true, s)) as Hidx.
    { intros bd. rewrite (vec_for_each_index_start _ _ _ _ Hv).
      simpl for_each_steps.
      rewrite (read_len_at h _ _ _ _ (allocated_header_at _ _ _ Ha)) by done.
      rewrite Hl. rewrite bool_decide_eq_false_2 by lia.
      rewrite wrap_small by lia. by rewrite bool_decide_eq_false_2 by lia. }
    split_and!; [apply Hidx | apply Hidx | | done].
    clear Hidx Hpop. destruct s as [v hp e], b as [sz l c m]; simpl in *; subst.
    unfold vec_clear_with, for_range.
    unfold vec__has_header, vec__get_header, load_len, store_len, header,
      put_block, bind, ret. sim. by rewrite insert_id by done.
Qed.

(** X13: the traversal visits the elements in order, once each.  On an
    allocated vector whose elements lie in the block, with a body that
    leaves the handle, the block size and the length alone,
    [vec_for_each_index] given enough steps runs the body for the indices
    0, 1, ..., [len-1], each time with the address of that slot, and then
    ends; when a body does not return, neither does the traversal. *)
Theorem for_each_visits_in_order fuel (body : ref → Z → M unit) s h b :
  allocated s h b →
  0 ≤ hdr_len b →
  stored b →
  blk_size b < 2 ^ size_bits →
  keeps_header h (blk_size b) (hdr_len b) body →
  (Z.to_nat (hdr_len b) < fuel)%nat →
  vec_for_each_index fuel body s =
    (for_each (λ i, body (SlotRef h i) i) (seqZ 0 (hdr_len b)) ;; ret true) s.
Proof.
  pose proof sizeof_T_pos as HT. pose proof sizeof_header_pos as HH.
  intros Ha Hl Hst Hsz Hkeep Hfuel. pose proof Ha as (Hv & Hh & Hhdr).
  rewrite (vec_for_each_index_start _ _ _ _ Hv).
  rewrite (for_each_steps_visit body h (blk_size b) (hdr_len b) Hkeep Hhdr)
    with (n := Z.to_nat (hdr_len b)).
  - by rewrite Z2Nat.id by done.
  - unfold stored in Hst. split; [done|lia].
  - unfold stored in Hst. nia.
  - by apply allocated_header_at.
  - done.
  - lia.
  - done.
Qed.

Lemma update_keeps_header (f : T → T) h sz l :
  keeps_header h sz l (λ value_ptr _, update_at f value_ptr).
Proof.
  intros p i s s' (Hv & b & Hh & Hsz & Hl).
  destruct p as [|h' j]; [done|].
  unfold update_at, load_ref, store_ref.
  intros (x & s1 & ->%load_slot_inv & Hst)%bind_ret_inv.
  unfold store_slot, put_block in Hst.
  destruct (heap s !! h') as [b'|] eqn:Hh'; [|done].
  case_decide; [|done]. injection Hst as <-.
  split; [done|]. simpl.
  destruct (decide (h' = h)) as [->|Hne].
  - rewrite lookup_insert_eq. eexists. split; [done|]. simpl.
    rewrite Hh in Hh'. by injection Hh' as <-.
  - rewrite lookup_insert_ne by done. by exists b.
Qed.

(** X14: a traversal whose body updates the element through the pointer
    updates every element exactly once: [vec_for_each] with the body
    [*value_ptr = f( *value_ptr)] ends, and the vector then holds the images
    of the elements under [f], in the same order, with the length and the
    capacity of before. *)
Theorem for_each_updates_every_element fuel (f : T → T) s h b :
  allocated s h b →
  0 ≤ hdr_len b →
  stored b →
  blk_size b < 2 ^ size_bits →
  (Z.to_nat (hdr_len b) < fuel)%nat →
  ∃ s', vec_for_each fuel (update_at f) s = Ret (true, s') ∧
        vec_len s' = Ret (hdr_len b, s') ∧
        vec_cap s' = Ret (hdr_cap b, s') ∧
        snapshot s' = (λ x : option T, f <$> x) <$> snapshot s.
Proof.
  pose proof sizeof_T_pos as HT. pose proof sizeof_header_pos as HH.
  intros Ha Hl Hst Hsz Hfuel. pose proof Ha as (Hv & Hh & Hhdr).
  unfold vec_for_each. rewrite (vec_for_each_index_start _ _ _ _ Hv).
  rewrite (for_each_steps_visit _ h (blk_size b) (hdr_len b)
             (update_keeps_header f h _ _) Hhdr)
    with (n := Z.to_nat (hdr_len b));
    [| unfold stored in Hst; split; [done|lia]
     | unfold stored in Hst; nia
     | by apply allocated_header_at
     | done
     | lia
     | done ].
  destruct s as [v hp e]; simpl in *; subst.
  destruct (destroy_loop f (Z.to_nat (hdr_len b)) 0 (Some h) hp e h b)
    as (m & Hrun & Hm); [done | lia | |].
  { rewrite Z2Nat.id by lia. apply Hst. }
  rewrite bind_unfold.
  change (for_each (λ j, update_at f (SlotRef h j)))
    with (for_each (call_deinit f h)).
  rewrite Hrun.
  eexists. split; [done|].
  set (b' := Block _ _ _ _).
  assert (allocated (State (Some h) (<[h := b']> hp) e) h b') as Ha'
    by (by apply allocated_insert).
  rewrite (vec_len_allocated _ _ _ Ha'), (vec_cap_allocated _ _ _ Ha').
  rewrite (snapshot_allocated _ _ _ Ha'), (snapshot_allocated _ _ _ Ha).
  split_and!; try done.
  apply list_eq. intros k.
  rewrite list_lookup_fmap, !contents_lookup. subst b'. simpl.
  case_decide; [|done]. simpl. rewrite Hm.
  by rewrite decide_True by lia.
Qed.

(** ** The heap discipline *)

Lemma keeps_refl s : keeps s s.
Proof. split; [done|]. by destruct (vec s). Qed.

Lemma keeps_trans s1 s2 s3 : keeps s1 s2 → keeps s2 s3 → keeps s1 s3.
Proof.
  intros [Hv1 H1] [Hv2 H2]. split; [congruence|].
  rewrite Hv1 in H2. destruct (vec s1); congruence.
Qed.

Lemma keeps_errno s e : keeps s (State (vec s) (heap s) e).
Proof. split; [done|]. by destruct (vec s). Qed.

Lemma keeps_put s h b :
  vec s = Some h → keeps s (State (vec s) (<[h := b]> (heap s)) (errno s)).
Proof. intros Hv. split; [done|]. rewrite Hv. simpl. apply delete_insert_eq. Qed.

Lemma owns_keeps hp0 s s' : owns hp0 s → keeps s s' → owns hp0 s'.
Proof.
  unfold owns. intros Ho [Hv Hk]. rewrite Hv.
  destruct (vec s); [|congruence].
  destruct Ho as [Hfree <-]. done.
Qed.

Lemma owns_local {A} hp0 (c : M A) s a s' :
  owns hp0 s → local_at (T := T) (vec s) c → c s = Ret (a, s') → owns hp0 s'.
Proof. intros Ho Hc Hrun. eapply owns_keeps; [done|]. by eapply Hc. Qed.

Lemma local_ret {A} v (a : A) : local_at (T := T) v (ret a).
Proof. intros s a' s' _ [= _ <-]. apply keeps_refl. Qed.

Lemma local_bind {A B} v (c : M A) (k : A → M B) :
  local_at (T := T) v c → (∀ a, local_at (T := T) v (k a)) → local_at (T := T) v (x <- c ;; k x).
Proof.
  intros Hc Hk s b s' Hv (a & s1 & Hrun & Hrest)%bind_ret_inv.
  pose proof (Hc _ _ _ Hv Hrun) as Hk1.
  eapply keeps_trans; [done|]. eapply Hk; [|done].
  destruct Hk1 as [-> _]. done.
Qed.

Lemma local_get_header {B} v (k : ptr → M B) :
  (∀ h, v = Some h → local_at (T := T) v (k h)) →
  local_at (T := T) v (h <- vec__get_header ;; k h).
Proof.
  intros Hk s b s' Hv (h & s1 & [-> Hh]%vec__get_header_inv & Hrest)%bind_ret_inv.
  eapply (Hk h); [congruence|done|done].
Qed.

Lemma local_has_header {B} v (k : bool → M B) :
  (v ≠ None → local_at (T := T) v (k true)) →
  (v = None → local_at (T := T) v (k false)) →
  local_at (T := T) v (a <- vec__has_header ;; k a).
Proof.
  intros Ht Hf s b s' Hv. rewrite bind_unfold. unfold vec__has_header.
  destruct (vec s) as [h|] eqn:E.
  - apply Ht; [by subst|]. by rewrite E.
  - apply Hf; [by subst|]. by rewrite E.
Qed.

Lemma local_realloc {B} h ok n (k : option ptr → M B) :
  local_at (T := T) (Some h) (k (Some h)) →
  local_at (T := T) (Some h) (k None) →
  local_at (T := T) (Some h) (r <- VEC_REALLOC ok h n ;; k r).
Proof.
  intros Hs Hn s b s' Hv. rewrite bind_unfold. unfold VEC_REALLOC.
  destruct (heap s !! h) as [b0|]; [|done]. destruct ok.
  - intros Hrun. eapply keeps_trans; [by apply (keeps_put _ h (resize n b0))|].
    eapply Hs; [|done]. done.
  - by apply Hn.
Qed.

Lemma local_header v h : local_at (T := T) v (header h).
Proof.
  intros s b s' _ (-> & _)%header_inv. apply keeps_refl.
Qed.

Lemma local_load_len v h : local_at (T := T) v (load_len h).
Proof.
  unfold load_len. apply local_bind; [apply local_header|].
  intros b. apply local_ret.
Qed.

Lemma local_load_cap v h : local_at (T := T) v (load_cap h).
Proof.
  unfold load_cap. apply local_bind; [apply local_header|].
  intros b. apply local_ret.
Qed.

Lemma local_put_block h b : local_at (T := T) (Some h) (put_block h b).
Proof. intros s [] s' Hv [= <-]. by apply keeps_put. Qed.

Lemma local_store_len h x : local_at (T := T) (Some h) (store_len h x).
Proof.
  unfold store_len. apply local_bind; [apply local_header|].
  intros b. apply local_put_block.
Qed.

Lemma local_store_cap h x : local_at (T := T) (Some h) (store_cap h x).
Proof.
  unfold store_cap. apply local_bind; [apply local_header|].
  intros b. apply local_put_block.
Qed.

Lemma local_load_slot v h i : local_at (T := T) v (load_slot h i).
Proof. intros s x s' _ ->%load_slot_inv. apply keeps_refl. Qed.

Lemma local_slot_addr v h i : local_at (T := T) v (slot_addr h i).
Proof. intros s x s' _ ->%slot_addr_inv. apply keeps_refl. Qed.

Lemma local_store_slot h i x : local_at (T := T) (Some h) (store_slot h i x).
Proof.
  intros s [] s' Hv. unfold store_slot.
  destruct (heap s !! h); [|done]. case_decide; [|done].
  by apply local_put_block.
Qed.

Lemma local_set_header h : local_at (T := T) (Some h) (vec__set_header h).
Proof.
  intros s [] s' Hv [= <-]. rewrite <- Hv. destruct s. apply keeps_refl.
Qed.

Lemma local_get_errno v : local_at (T := T) v get_errno.
Proof. intros s e s' _ [= _ <-]. apply keeps_refl. Qed.

Lemma local_set_errno v e : local_at (T := T) v (set_errno e).
Proof. intros s [] s' _ [= <-]. apply keeps_errno. Qed.

Lemma local_assert v c r : local_at (T := T) v (VEC_ASSERT c r).
Proof.
  intros s [] s' _. unfold VEC_ASSERT. destruct c; [|done].
  intros [= <-]. apply keeps_refl.
Qed.

Lemma local_panic {A} v r : local_at (T := T) v (VEC_PANIC (A := A) r).
Proof. by intros s a s' _. Qed.

Lemma local_for_each v (body : Z → M unit) idx :
  (∀ i, local_at (T := T) v (body i)) → local_at (T := T) v (for_each body idx).
Proof.
  intros Hbody. induction idx as [|i idx IH]; simpl.
  - apply local_ret.
  - apply local_bind; [apply Hbody|]. by intros _.
Qed.

Lemma local_vec_len v : local_at (T := T) v vec_len.
Proof.
  unfold vec_len. apply local_has_header; intros Hv.
  - apply local_get_header. intros h _. apply local_load_len.
  - apply local_ret.
Qed.

Lemma local_write_last v x :
  local_at (T := T) v (h <- vec__get_header ;; l <- load_len h ;;
              store_slot h (wrap (l - 1)) (Some x)).
Proof.
  apply local_get_header. intros h ->.
  apply local_bind; [apply local_load_len|]. intros l.
  apply local_store_slot.
Qed.

Lemma local_last_addr v :
  local_at (T := T) v (h <- vec__get_header ;; l <- load_len h ;;
              slot_addr h l ;; slot_addr h (l - 1)).
Proof.
  apply local_get_header. intros h ->.
  apply local_bind; [apply local_load_len|]. intros l.
  apply local_bind; [apply local_slot_addr|]. intros _.
  apply local_slot_addr.
Qed.

Lemma local_drop_last {B} h (k : M B) :
  local_at (T := T) (Some h) k →
  local_at (T := T) (Some h) (l <- load_len h ;; store_len h (wrap (l - 1)) ;; k).
Proof.
  intros Hk. apply local_bind; [apply local_load_len|]. intros l.
  apply local_bind; [apply local_store_len|]. by intros _.
Qed.

(** The growth step and the reservation allocate when the handle is
    [NULL], and the new block becomes the one of the handle; otherwise
    they work on the block of the handle. *)
Lemma grow_owns hp0 fail ok s s' :
  owns hp0 s → local_at (T := T) (vec s) fail →
  vec__grow_or_fail fail ok s = Ret (tt, s') → owns hp0 s'.
Proof.
  intros Ho Hfail. destruct (vec s) as [h|] eqn:Hv.
  - apply (owns_local hp0 _ s tt s' Ho). rewrite Hv.
    unfold vec__grow_or_fail. apply local_has_header; [intros _|done].
    simpl. apply local_get_header. intros h' [= <-].
    apply local_bind; [apply local_load_len|]. intros l.
    apply local_bind; [apply local_load_cap|]. intros c.
    case_bool_decide; [apply local_store_len|].
    apply local_realloc; [|done].
    apply local_bind; [apply local_set_header|]. intros _.
    apply local_bind; [apply local_store_cap|]. intros _.
    apply local_bind; [apply local_load_len|]. intros l'.
    apply local_store_len.
  - rewrite (grow_null _ _ _ Hv). destruct ok.
    + simpl. case_decide; [|done]. intros [= <-].
      unfold owns in *. rewrite Hv in Ho. simpl. subst hp0.
      assert (heap s !! fresh (dom (heap s)) = None) as Hfresh
        by apply not_elem_of_dom, is_fresh.
      split; [done|]. by rewrite delete_insert_id.
    + intros Hrun. eapply owns_local; [done| |done]. by rewrite Hv.
Qed.

Lemma reserve_owns hp0 K fail ok s s' :
  owns hp0 s → local_at (T := T) (vec s) fail →
  vec__reserve_or_fail K fail ok s = Ret (tt, s') → owns hp0 s'.
Proof.
  intros Ho Hfail.
  destruct (decide (wrap K = 0)) as [HK|HK].
  { rewrite reserve_zero by done. by intros [= <-]. }
  destruct (vec s) as [h|] eqn:Hv.
  - apply (owns_local hp0 _ s tt s' Ho). rewrite Hv.
    unfold vec__reserve_or_fail. rewrite bool_decide_eq_false_2 by done.
    apply local_has_header; [intros _|done].
    simpl. apply local_get_header. intros h' [= <-].
    apply local_bind; [apply local_load_cap|]. intros c.
    case_bool_decide; [|apply local_ret].
    apply local_realloc; [|done].
    apply local_bind; [apply local_set_header|]. intros _.
    apply local_store_cap.
  - rewrite (reserve_null _ _ _ _ HK Hv). destruct ok.
    + simpl. case_decide; [|done]. intros [= <-].
      unfold owns in *. rewrite Hv in Ho. simpl. subst hp0.
      assert (heap s !! fresh (dom (heap s)) = None) as Hfresh
        by apply not_elem_of_dom, is_fresh.
      split; [done|]. by rewrite delete_insert_id.
    + intros Hrun. eapply owns_local; [done| |done]. by rewrite Hv.
Qed.

Lemma run_op_owns hp0 o s s' :
  o ≠ OpInit → owns hp0 s → run_op o s = Ret (tt, s') → owns hp0 s'.
Proof.
  intros Hinit Ho.
  destruct o as [|v ok|v ok|ok|ok|K ok|K ok| | |i|i|]; simpl; [done|..].
  - (* vec_push *)
    unfold vec_push. intros ([] & s1 & Hg & Hw)%bind_ret_inv.
    apply (grow_owns hp0) in Hg; [|done|apply local_panic].
    eapply owns_local; [done|apply local_write_last|done].
  - (* vec_try_push *)
    unfold vec_try_push. intros ([] & s1 & Hg & Hw)%bind_ret_inv.
    apply (grow_owns hp0) in Hg; [|done|apply local_set_errno].
    eapply owns_local; [done| |done].
    apply local_bind; [apply local_get_errno|]. intros e.
    case_bool_decide; [apply local_write_last|apply local_ret].
  - (* vec_emplace *)
    intros (r & s1 & He & [= <-])%bind_ret_inv. unfold vec_emplace in He.
    apply bind_ret_inv in He as ([] & s2 & Hg & Hw).
    apply (grow_owns hp0) in Hg; [|done|apply local_panic].
    eapply owns_local; [done|apply local_last_addr|done].
  - (* vec_try_emplace *)
    intros (r & s1 & He & [= <-])%bind_ret_inv. unfold vec_try_emplace in He.
    apply bind_ret_inv in He as ([] & s2 & Hg & Hw).
    apply (grow_owns hp0) in Hg; [|done|apply local_set_errno].
    eapply owns_local; [done| |done].
    apply local_bind; [apply local_get_errno|]. intros e.
    case_bool_decide; [apply local_last_addr|apply local_ret].
  - (* vec_reserve *)
    unfold vec_reserve. intros Hr.
    eapply reserve_owns; [done|apply local_panic|done].
  - (* vec_try_reserve *)
    unfold vec_try_reserve. intros Hr.
    eapply reserve_owns; [done|apply local_set_errno|done].
  - (* vec_pop *)
    apply owns_local; [done|]. unfold vec_pop.
    apply local_bind; [apply local_vec_len|]. intros n.
    apply local_bind; [apply local_assert|]. intros _.
    apply local_get_header. intros h ->.
    apply local_bind; [apply local_load_len|]. intros l.
    apply local_store_len.
  - (* vec_clear *)
    apply owns_local; [done|]. unfold vec_clear.
    apply local_has_header; intros Hv; [|apply local_ret].
    apply local_get_header. intros h ->. apply local_store_len.
  - (* vec_remove_swap_at *)
    apply owns_local; [done|]. unfold vec_remove_swap_at.
    apply local_bind; [apply local_vec_len|]. intros n.
    apply local_bind; [apply local_assert|]. intros _.
    apply local_get_header. intros h ->. apply local_drop_last.
    apply local_bind; [apply local_load_len|]. intros l'.
    apply local_bind; [apply local_load_slot|]. intros x.
    apply local_store_slot.
  - (* vec_remove_shift_at *)
    apply owns_local; [done|]. unfold vec_remove_shift_at.
    apply local_bind; [apply local_vec_len|]. intros n.
    apply local_bind; [apply local_assert|]. intros _.
    apply local_get_header. intros h ->. apply local_drop_last.
    apply local_bind; [apply local_load_len|]. intros l'.
    apply local_for_each. intros j.
    apply local_bind; [apply local_load_slot|]. intros x.
    apply local_store_slot.
  - (* vec_deinit *)
    unfold owns in *. destruct (vec s) as [h|] eqn:Hv.
    + destruct (heap s !! h) as [b|] eqn:Hh.
      * rewrite (vec_deinit_live _ _ _ Hv Hh). intros [= <-]. simpl.
        by rewrite delete_delete_eq.
      * rewrite vec_deinit_dangling; [done|]. by exists h.
    + rewrite vec_deinit_null by done. intros [= <-]. by rewrite Hv.
Qed.

Lemma run_owns hp0 ops :
  ∀ s s', OpInit ∉ ops → owns hp0 s → run ops s = Ret (tt, s') → owns hp0 s'.
Proof.
  induction ops as [|o ops IH]; intros s s' Hinit Ho; simpl.
  - by intros [= <-].
  - intros ([] & s1 & Hop & Hrest)%bind_ret_inv.
    apply not_elem_of_cons in Hinit as [Hne Hinit].
    eapply IH; [done| |done]. eapply run_op_owns; [|done|done]. congruence.
Qed.

(** X15: the vector owns one block at most and touches no other.  After
    [vec_init] and any calls that do not initialise again, every block the
    heap held before is still there with its content, and the heap holds
    nothing more than that and the block of the handle; so [vec_deinit], when
    it returns, leaves the heap as it was before [vec_init]: no call leaks
    or frees storage of somebody else. *)
Theorem heap_discipline (ops : list op) s0 s :
  OpInit ∉ ops →
  run (OpInit :: ops) s0 = Ret (tt, s) →
  (∀ p b, heap s0 !! p = Some b → heap s !! p = Some b) ∧
  (vec s = None → heap s = heap s0) ∧
  (∀ h, vec s = Some h → heap s0 !! h = None ∧ delete h (heap s) = heap s0) ∧
  (∀ s', vec_deinit s = Ret (tt, s') → heap s' = heap s0).
Proof.
  intros Hinit Hrun. simpl in Hrun.
  apply bind_ret_inv in Hrun as ([] & s1 & [= <-] & Hrun).
  assert (owns (heap s0) s) as Ho.
  { eapply run_owns; [done| |done]. done. }
  unfold owns in Ho. split_and!.
  - intros p b Hp. destruct (vec s) as [h|].
    + destruct Ho as [Hfree Ho]. rewrite <- Ho in Hp.
      apply lookup_delete_Some in Hp. apply Hp.
    + by rewrite Ho.
  - intros Hv. by rewrite Hv in Ho.
  - intros h Hv. by rewrite Hv in Ho.
  - intros s'. destruct (vec s) as [h|] eqn:Hv.
    + destruct (heap s !! h) as [b|] eqn:Hh.
      * rewrite (vec_deinit_live _ _ _ Hv Hh). intros [= <-]. apply Ho.
      * rewrite vec_deinit_dangling; [done|]. by exists h.
    + rewrite vec_deinit_null by done. by intros [= <-].
Qed.

(** ** How the operations relate *)

(** X16: removing the last element is [vec_pop].  For the index [len-1]
    both removals end in exactly the state [vec_pop] ends in: the swap
    variant copies the last element onto itself, the shift variant moves
    nothing. *)
Theorem remove_last_is_pop s h b :
  allocated s h b →
  block_ok b →
  stored b →
  0 < hdr_len b →
  vec_remove_swap_at (hdr_len b - 1) s = vec_pop s ∧
  vec_remove_shift_at (hdr_len b - 1) s = vec_pop s ∧
  ∃ s', vec_pop s = Ret (tt, s').
Proof.
  pose proof sizeof_T_pos.
  intros Ha [Hl Hc] Hst Hpos.
  rewrite (vec_pop_allocated _ _ _ Ha) by lia.
  split_and!; [| |by eexists].
  - rewrite (vec_remove_swap_at_allocated _ _ _ _ Ha) by lia.
    rewrite decide_True by (unfold slot_in, stored in *; split; [lia|nia]).
    by rewrite partial_alter_self.
  - destruct (vec_remove_shift_at_allocated (hdr_len b - 1) s h b)
      as (m & -> & Hm); [done | lia | lia | done |].
    do 4 f_equal. f_equal. apply map_eq. intros j.
    rewrite Hm. by rewrite decide_False by lia.
Qed.

(** After a growth step that returns without running the failure block the
    vector is allocated and its length is a [size_t] value. *)
Lemma grow_returns_allocated ok s s1 r :
  vec__grow_or_fail (VEC_PANIC r) ok s = Ret (tt, s1) →
  ∃ h b1, allocated s1 h b1 ∧ 0 ≤ hdr_len b1 < 2 ^ size_bits.
Proof.
  pose proof pow_size_half. pose proof pow_half_pos.
  destruct (vec s) as [h|] eqn:Hv.
  - destruct (heap s !! h) as [b|] eqn:Hh.
    + destruct (decide (sizeof_header ≤ blk_size b)) as [Hsz|Hsz].
      * assert (allocated s h b) as Ha by done.
        rewrite (grow_allocated _ _ _ _ _ Ha). case_bool_decide.
        -- intros [= <-]. eexists _, _. split; [by apply allocated_insert|].
           simpl. apply wrap_range.
        -- destruct ok; [|done]. simpl. case_decide; [|done].
           intros [= <-]. eexists _, _. split; [by apply allocated_insert|].
           simpl. apply wrap_range.
      * by rewrite (grow_short _ _ _ _ _ Hv Hh Hsz).
    + rewrite grow_dangling; [done|]. by exists h.
  - rewrite (grow_null _ _ _ Hv). destruct ok; [|done]. simpl.
    case_decide; [|done]. intros [= <-].
    eexists _, _. split; [by apply allocated_insert|]. simpl. lia.
Qed.

(** X17: [vec_emplace] followed by a write through the pointer it returns
    is [vec_push].  When [vec_emplace] returns, the pointer is the address
    of the new last slot, and storing a value there ends in exactly the
    state, or the undefined behaviour, that [vec_push] of the value gives
    from the same start. *)
Theorem emplace_then_write_is_push v ok s r s1 :
  vec_emplace ok s = Ret (r, s1) →
  store_ref r (Some v) s1 = vec_push v ok s ∧
  ∃ h l, r = SlotRef h (l - 1) ∧ 0 < l ∧
         vec s1 = Some h ∧ vec_len s1 = Ret (l, s1).
Proof.
  unfold vec_emplace, vec_push.
  intros ([] & s2 & Hg & Hrest)%bind_ret_inv.
  assert (vec__grow_or_fail (VEC_PANIC "vec_push out of memory") ok s
          = Ret (tt, s2)) as Hg'.
  { destruct (grow_cases ok s) as [(r0 & Hall & _) | Hfail].
    - by rewrite Hall in Hg |- *.
    - by rewrite Hfail in Hg. }
  rewrite bind_unfold, Hg'.
  destruct (grow_returns_allocated _ _ _ _ Hg) as (h & b1 & Ha & Hl).
  pose proof Ha as (Hv & Hh & Hsz).
  rewrite (read_len_at h (blk_size b1) (hdr_len b1)) in Hrest
    by (done || by apply allocated_header_at).
  rewrite (read_len_at h (blk_size b1) (hdr_len b1))
    by (done || by apply allocated_header_at).
  apply bind_ret_inv in Hrest as (r1 & s3 & Hfirst & Hsecond).
  apply slot_addr_inv in Hfirst as ->.
  unfold slot_addr in Hsecond. rewrite Hh in Hsecond.
  case_decide as Hin; [|done]. injection Hsecond as <- <-.
  assert (0 < hdr_len b1) as Hpos by (destruct Hin; lia).
  rewrite wrap_small by lia.
  split; [done|].
  exists h, (hdr_len b1). by rewrite (vec_len_allocated _ _ _ Ha).
Qed.

(** ** Reservations *)


(** X19: a reservation within the capacity does nothing.  With [K] at most
    the capacity ([K = 0] on an unallocated vector), [vec_reserve(K)] and
    [vec_try_reserve(K)] return with the state unchanged, whatever the
    allocator would answer: the capacity never shrinks and no storage
    moves. *)
Theorem reserve_within_capacity_is_noop K ok s c :
  vec_ok s →
  vec_cap s = Ret (c, s) →
  0 ≤ K ≤ c →
  vec_reserve K ok s = Ret (tt, s) ∧ vec_try_reserve K ok s = Ret (tt, s).
Proof.
  intros Hok Hcap HK. unfold vec_reserve, vec_try_reserve.
  destruct Hok as [Hv | (h & b & Ha & [Hl Hc])].
  - rewrite vec_cap_null in Hcap by done. injection Hcap as <-.
    assert (K = 0) as -> by lia.
    by rewrite !reserve_zero by done.
  - rewrite (vec_cap_allocated _ _ _ Ha) in Hcap. injection Hcap as <-.
    assert (wrap K = K) as HwK by (apply wrap_small; lia).
    destruct (decide (K = 0)) as [->|HK0].
    + by rewrite !reserve_zero by done.
    + rewrite !(reserve_allocated K _ _ s h b) by (done || lia).
      by rewrite HwK, !bool_decide_eq_false_2 by lia.
Qed.

End Proofs.

(** * The theorems at concrete vectors *)

Ltac concrete := vm_compute; first [reflexivity | discriminate].

Section Lp64Int.
#[local] Existing Instance lp64_int.

(** C1, as the claim states it, fails: after one push, [vec_deinit] leaves
    the handle non-null; reading the length or the capacity, or releasing
    once more, is undefined. *)
Lemma deinit_leaves_dangling_handle :
  run [OpInit; OpPush 7 true] boot = Ret (tt, vec_of 20 1 [7] 0) ∧
  vec_deinit (vec_of 20 1 [7] 0) = Ret (tt, released) ∧
  vec released ≠ None ∧
  vec_len released ≠ Ret (0, released) ∧
  vec_cap released ≠ Ret (0, released) ∧
  vec_deinit released ≠ Ret (tt, released).
Proof. split_and!; concrete. Qed.

Lemma deinit_frees_keeps_handle_witness :
  (vec_ok (vec_of 20 1 [7] 0) ∧
   (∀ h b, allocated (vec_of 20 1 [7] 0) h b → stored b)) ∧
  ∃ s', vec_deinit (vec_of 20 1 [7] 0) = Ret (tt, s') ∧
        vec_deinit_with Z.succ (vec_of 20 1 [7] 0) = Ret (tt, s') ∧
        vec s' = vec (vec_of 20 1 [7] 0) ∧
        (vec (vec_of 20 1 [7] 0) = None → s' = vec_of 20 1 [7] 0) ∧
        (∀ h, vec (vec_of 20 1 [7] 0) = Some h →
              heap s' = delete h (heap (vec_of 20 1 [7] 0)) ∧
              vec_len s' = Undef ∧ vec_cap s' = Undef ∧
              vec_deinit s' = Undef ∧ vec_deinit_with Z.succ s' = Undef) ∧
        ∃ s'', vec_init s' = Ret (tt, s'') ∧
               vec_len s'' = Ret (0, s'') ∧ vec_cap s'' = Ret (0, s'').
Proof.
  assert (vec_ok (vec_of 20 1 [7] 0)) as Hok.
  { right. exists 1%positive, (block_of 20 1 [7]).
    repeat split; concrete. }
  assert (∀ h b, allocated (vec_of 20 1 [7] 0) h b → stored b) as Hst.
  { intros h b (Hv & Hh & _). injection Hv as <-.
    vm_compute in Hh. injection Hh as <-. concrete. }
  split; [by split|].
  exact (deinit_frees_keeps_handle Z.succ (vec_of 20 1 [7] 0) Hok Hst).
Defined.




(** C3: a [vec_try_push] whose allocation fails stores [ENOMEM] (12) into
    [errno] and leaves the vector as it was.  The next [vec_try_push], for
    which the allocator succeeds, grows the vector to length 1 and then
    finds the stale [ENOMEM]: it does not write the value, and slot 0 is
    left indeterminate.  [vec_push] in the same state writes it. *)
Theorem try_push_skips_write_on_stale_errno :
  run [OpInit; OpTryPush 1 false] boot = Ret (tt, out_of_memory) ∧
  vec_try_push 2 true out_of_memory = Ret (tt, unwritten) ∧
  vec_len unwritten = Ret (1, unwritten) ∧
  vec_at 0 unwritten = Ret (None, unwritten) ∧
  vec_push 2 true out_of_memory = Ret (tt, vec_of 20 1 [2] 12).
Proof. split_and!; concrete. Qed.

(** C4: with its last line read as a conditional expression (as written,
    with [:] for [?], the macro does not compile), [vec_try_emplace] tests
    an [errno] it never clears.  After a failed [vec_try_push] has left
    [ENOMEM] there, a [vec_try_emplace] for which the allocator succeeds
    grows the vector to length 1 and returns the null reference;
    [vec_emplace] in the same state returns the new slot. *)
Theorem try_emplace_null_on_stale_errno :
  run [OpInit; OpTryPush 1 false] boot = Ret (tt, out_of_memory) ∧
  vec_try_emplace true out_of_memory = Ret (NullRef, unwritten) ∧
  vec_len unwritten = Ret (1, unwritten) ∧
  vec_emplace true out_of_memory = Ret (SlotRef 1%positive 0, unwritten).
Proof. split_and!; concrete. Qed.

Lemma push_all_holds_witness :
  (vec_init ;; push_all [(10, true); (20, true); (30, true)]) boot
    = Ret (tt, vec_of 32 4 [10; 20; 30] 0) ∧
  (vec_len (vec_of 32 4 [10; 20; 30] 0)
     = Ret (Z.of_nat (length [(10, true); (20, true); (30, true)]),
            vec_of 32 4 [10; 20; 30] 0) ∧
   ∀ (i : nat) v,
     [(10, true); (20, true); (30, true)].*1 !! i = Some v →
     vec_at (Z.of_nat i) (vec_of 32 4 [10; 20; 30] 0)
       = Ret (Some v, vec_of 32 4 [10; 20; 30] 0)).
Proof.
  assert ((vec_init ;; push_all [(10, true); (20, true); (30, true)]) boot
          = Ret (tt, vec_of 32 4 [10; 20; 30] 0)) as Hrun by concrete.
  split; [exact Hrun|].
  exact (push_all_holds _ boot _ Hrun).
Defined.


(** The capacities after one to five pushes onto a fresh vector. *)
Example capacity_sequence :
  (λ n, cap_after n) <$> [1; 2; 3; 4; 5]%nat = [1; 2; 4; 4; 8].
Proof. concrete. Qed.


Lemma reserve_within_capacity_is_noop_witness :
  (vec_ok (vec_of 32 4 [10; 20; 30] 0) ∧
   vec_cap (vec_of 32 4 [10; 20; 30] 0) = Ret (4, vec_of 32 4 [10; 20; 30] 0) ∧
   0 ≤ 2 ≤ 4) ∧
  (vec_reserve 2 false (vec_of 32 4 [10; 20; 30] 0)
     = Ret (tt, vec_of 32 4 [10; 20; 30] 0) ∧
   vec_try_reserve 2 false (vec_of 32 4 [10; 20; 30] 0)
     = Ret (tt, vec_of 32 4 [10; 20; 30] 0)).
Proof.
  assert (vec_ok (vec_of 32 4 [10; 20; 30] 0)) as Hok.
  { right. exists 1%positive, (block_of 32 4 [10; 20; 30]).
    repeat split; concrete. }
  assert (vec_cap (vec_of 32 4 [10; 20; 30] 0)
          = Ret (4, vec_of 32 4 [10; 20; 30] 0)) as Hcap by concrete.
  assert (0 ≤ 2 ≤ 4) as HK by lia.
  split; [by split_and!|].
  exact (reserve_within_capacity_is_noop 2 false _ 4 Hok Hcap HK).
Defined.

(** C7: the byte count of a reservation is computed in [size_t] without a
    check.  With [int] elements on LP64, [vec_reserve] of [2 ^ 62 + 1]
    slots asks the allocator for [16 + 4 * (2 ^ 62 + 1) mod 2 ^ 64 = 20]
    bytes and, when it gets them, returns with the capacity recorded as
    [2 ^ 62 + 1] over a block that has room for one element.  The appends
    that follow trust the capacity: the second one does not reallocate and
    writes outside the block. *)
Theorem reserve_capacity_exceeds_block :
  run [OpInit; OpReserve (2 ^ 62 + 1) true] boot = Ret (tt, overcommitted) ∧
  vec_cap overcommitted = Ret (2 ^ 62 + 1, overcommitted) ∧
  allocated overcommitted 1%positive overcommitted_block ∧
  blk_size overcommitted_block = sizeof_header + sizeof_T * 1 ∧
  ¬ backed overcommitted_block ∧
  (∃ s, vec_push 1 false overcommitted = Ret (tt, s) ∧
        vec_push 2 false s = Undef).
Proof.
  split_and!; [concrete | concrete | repeat split; concrete | concrete | | ].
  - unfold backed. vm_compute. intros Hle. by apply Hle.
  - eexists. split; [concrete|]. concrete.
Qed.

(** Reserving 10 on a fresh vector, then 4. *)
Example reserve_then_smaller :
  run [OpInit; OpReserve 10 true] boot = Ret (tt, vec_of 56 10 [] 0) ∧
  vec_reserve 4 false (vec_of 56 10 [] 0) = Ret (tt, vec_of 56 10 [] 0).
Proof. split; concrete. Qed.

Lemma swap_remove_moves_last_witness :
  (allocated (vec_of 32 4 [10; 20; 30; 40] 0) 1%positive
             (block_of 32 4 [10; 20; 30; 40]) ∧
   block_ok (block_of 32 4 [10; 20; 30; 40]) ∧
   stored (block_of 32 4 [10; 20; 30; 40]) ∧
   0 ≤ 1 < hdr_len (block_of 32 4 [10; 20; 30; 40])) ∧
  ∃ s', vec_remove_swap_at 1 (vec_of 32 4 [10; 20; 30; 40] 0) = Ret (tt, s') ∧
        vec_len s' = Ret (hdr_len (block_of 32 4 [10; 20; 30; 40]) - 1, s') ∧
        vec_cap s' = Ret (hdr_cap (block_of 32 4 [10; 20; 30; 40]), s') ∧
        snapshot s' =
          <[Z.to_nat 1 := elems (block_of 32 4 [10; 20; 30; 40])
                            !! (hdr_len (block_of 32 4 [10; 20; 30; 40]) - 1)]>
            (take (Z.to_nat (hdr_len (block_of 32 4 [10; 20; 30; 40]) - 1))
                  (snapshot (vec_of 32 4 [10; 20; 30; 40] 0))).
Proof.
  assert (allocated (vec_of 32 4 [10; 20; 30; 40] 0) 1%positive
                    (block_of 32 4 [10; 20; 30; 40])) as Ha
    by (repeat split; concrete).
  assert (block_ok (block_of 32 4 [10; 20; 30; 40])) as Hb
    by (repeat split; concrete).
  assert (stored (block_of 32 4 [10; 20; 30; 40])) as Hst by concrete.
  assert (0 ≤ 1 < hdr_len (block_of 32 4 [10; 20; 30; 40])) as Hi
    by (split; concrete).
  split; [by split_and!|].
  exact (swap_remove_moves_last 1 _ _ _ Ha Hb Hst Hi).
Defined.

(** Swap-remove at index 1 of [10, 20, 30, 40]. *)
Example swap_remove_example :
  snapshot (vec_of 32 4 [10; 20; 30; 40] 0) = [Some 10; Some 20; Some 30; Some 40] ∧
  snapshot <$> exec (vec_remove_swap_at 1) (vec_of 32 4 [10; 20; 30; 40] 0)
    = Some [Some 10; Some 40; Some 30] ∧
  (λ s, vec_len s) <$> exec (vec_remove_swap_at 1) (vec_of 32 4 [10; 20; 30; 40] 0)
    = (λ s, Ret (3, s)) <$> exec (vec_remove_swap_at 1) (vec_of 32 4 [10; 20; 30; 40] 0).
Proof. split_and!; concrete. Qed.

Lemma shift_remove_keeps_order_witness :
  (allocated (vec_of 32 4 [10; 20; 30; 40] 0) 1%positive
             (block_of 32 4 [10; 20; 30; 40]) ∧
   block_ok (block_of 32 4 [10; 20; 30; 40]) ∧
   stored (block_of 32 4 [10; 20; 30; 40]) ∧
   0 ≤ 1 < hdr_len (block_of 32 4 [10; 20; 30; 40])) ∧
  ∃ s', vec_remove_shift_at 1 (vec_of 32 4 [10; 20; 30; 40] 0) = Ret (tt, s') ∧
        vec_len s' = Ret (hdr_len (block_of 32 4 [10; 20; 30; 40]) - 1, s') ∧
        vec_cap s' = Ret (hdr_cap (block_of 32 4 [10; 20; 30; 40]), s') ∧
        snapshot s' = delete (Z.to_nat 1) (snapshot (vec_of 32 4 [10; 20; 30; 40] 0)).
Proof.
  assert (allocated (vec_of 32 4 [10; 20; 30; 40] 0) 1%positive
                    (block_of 32 4 [10; 20; 30; 40])) as Ha
    by (repeat split; concrete).
  assert (block_ok (block_of 32 4 [10; 20; 30; 40])) as Hb
    by (repeat split; concrete).
  assert (stored (block_of 32 4 [10; 20; 30; 40])) as Hst by concrete.
  assert (0 ≤ 1 < hdr_len (block_of 32 4 [10; 20; 30; 40])) as Hi
    by (split; concrete).
  split; [by split_and!|].
  exact (shift_remove_keeps_order 1 _ _ _ Ha Hb Hst Hi).
Defined.

(** Shift-remove at index 1 of [10, 20, 30, 40]. *)
Example shift_remove_example :
  snapshot <$> exec (vec_remove_shift_at 1) (vec_of 32 4 [10; 20; 30; 40] 0)
    = Some [Some 10; Some 30; Some 40] ∧
  (λ s, vec_len s) <$> exec (vec_remove_shift_at 1) (vec_of 32 4 [10; 20; 30; 40] 0)
    = (λ s, Ret (3, s)) <$> exec (vec_remove_shift_at 1) (vec_of 32 4 [10; 20; 30; 40] 0).
Proof. split_and!; concrete. Qed.

End Lp64Int.

Section Lp64Char.
#[local] Existing Instance lp64_char.

Lemma grow_capacity_wraps_witness :
  (allocated full_half 1%positive half_block ∧
   hdr_len half_block = hdr_cap half_block ∧
   0 ≤ hdr_cap half_block < 2 ^ size_bits ∧
   sizeof_header ≤ alloc_size ((2 * hdr_cap half_block) mod 2 ^ size_bits) ∧
   2 ^ (size_bits - 1) ≤ hdr_cap half_block) ∧
  ∃ s', vec__grow_or_fail (VEC_PANIC "vec_push out of memory") true full_half
          = Ret (tt, s') ∧
        vec_cap s' = Ret ((2 * hdr_cap half_block) mod 2 ^ size_bits, s') ∧
        vec_len s' = Ret (wrap (hdr_len half_block + 1), s') ∧
        (2 ^ (size_bits - 1) ≤ hdr_cap half_block →
         (2 * hdr_cap half_block) mod 2 ^ size_bits < hdr_len half_block).
Proof.
  assert (allocated full_half 1%positive half_block) as Ha
    by (repeat split; concrete).
  assert (0 ≤ hdr_cap half_block < 2 ^ size_bits) as Hc by (split; concrete).
  assert (sizeof_header ≤ alloc_size ((2 * hdr_cap half_block) mod 2 ^ size_bits))
    as Hfit by concrete.
  split; [split_and!; try done; concrete|].
  exact (grow_capacity_wraps (VEC_PANIC "vec_push out of memory") full_half
           1%positive _ Ha eq_refl Hc Hfit).
Defined.

(** What the overflow looks like: the full vector of [2 ^ 63] [char]s is
    reallocated to a bare header, with capacity 0 and length [2 ^ 63 + 1]. *)
Example grow_past_half :
  vec__grow_or_fail (VEC_PANIC "vec_emplace out of memory") true full_half
    = Ret (tt, State (Some 1%positive) {[1%positive := Block 16 (2 ^ 63 + 1) 0 ∅]} 0).
Proof. concrete. Qed.

End Lp64Char.

Section Overflow.
#[local] Existing Instance lp64_char.

(** On LP64 with [char] elements: [2 ^ 63 + 3] calls after [vec_init]
    return in a state with length [2 ^ 63 + 1] and capacity 0. *)
Lemma overflow_breaks_invariant_lp64 :
  ∃ s, run ([OpInit; OpReserve (2 ^ (size_bits - 1)) true]
            ++ replicate (Z.to_nat (2 ^ (size_bits - 1))) (OpEmplace true)
            ++ [OpTryPush 7 false; OpTryPush 7 true]) boot = Ret (tt, s) ∧
       ¬ invariant s.
Proof.
  assert (sizeof_header + 2 ^ (size_bits - 1) < 2 ^ size_bits) as Hfit by concrete.
  destruct (overflow_breaks_invariant (H := lp64_char) 7 boot eq_refl Hfit)
    as (s & Hrun & Hv & Hl & Hc).
  exists s. split; [exact Hrun|].
  intros (l & c & Hl' & Hc' & Hle & _).
  rewrite Hl in Hl'. rewrite Hc in Hc'.
  injection Hl' as <-. injection Hc' as <-.
  pose proof (pow_half_pos (H := lp64_char)). lia.
Qed.

(** The byte count of a reservation is computed in [size_t] as well: with
    [int] elements, reserving [2 ^ 62 + 1] slots asks the allocator for 20
    bytes, and the capacity is recorded as [2 ^ 62 + 1]. *)
Example reserve_byte_count_wraps :
  vec_reserve (H := lp64_int) (2 ^ 62 + 1) true boot
    = Ret (tt, State (Some 1%positive)
                 {[1%positive := Block 20 0 (2 ^ 62 + 1) ∅]} 0).
Proof. concrete. Qed.

End Overflow.

(** ** The further properties on LP64 with [int] elements *)

Section Lp64IntOperations.
#[local] Existing Instance lp64_int.

Lemma pop_drops_last_witness :
  (allocated (vec_of 32 4 [10; 20; 30] 0) 1%positive (block_of 32 4 [10; 20; 30]) ∧
   block_ok (block_of 32 4 [10; 20; 30]) ∧
   0 < hdr_len (block_of 32 4 [10; 20; 30])) ∧
  ∃ s' b', vec_pop (vec_of 32 4 [10; 20; 30] 0) = Ret (tt, s') ∧
           allocated s' 1%positive b' ∧
           blk_size b' = blk_size (block_of 32 4 [10; 20; 30]) ∧
           elems b' = elems (block_of 32 4 [10; 20; 30]) ∧
           vec_len s' = Ret (hdr_len (block_of 32 4 [10; 20; 30]) - 1, s') ∧
           vec_cap s' = Ret (hdr_cap (block_of 32 4 [10; 20; 30]), s') ∧
           snapshot s' =
             take (Z.to_nat (hdr_len (block_of 32 4 [10; 20; 30]) - 1))
                  (snapshot (vec_of 32 4 [10; 20; 30] 0)).
Proof.
  assert (allocated (vec_of 32 4 [10; 20; 30] 0) 1%positive
                    (block_of 32 4 [10; 20; 30])) as Ha
    by (repeat split; concrete).
  assert (block_ok (block_of 32 4 [10; 20; 30])) as Hb
    by (repeat split; concrete).
  assert (0 < hdr_len (block_of 32 4 [10; 20; 30])) as Hpos by concrete.
  split; [by split_and!|].
  exact (pop_drops_last _ _ _ Ha Hb Hpos).
Defined.

Lemma index_out_of_bounds_aborts_witness :
  (vec_len (vec_of 32 4 [10; 20; 30; 40] 0)
     = Ret (4, vec_of 32 4 [10; 20; 30; 40] 0) ∧
   4 ≤ wrap (-1)) ∧
  (vec_remove_swap_at (-1) (vec_of 32 4 [10; 20; 30; 40] 0)
     = AssertFail "vec_remove_swap_at out of bounds" ∧
   vec_remove_shift_at (-1) (vec_of 32 4 [10; 20; 30; 40] 0)
     = AssertFail "vec_remove_shift_at out of bounds" ∧
   vec_remove_swap_at_with (-1) Z.succ (vec_of 32 4 [10; 20; 30; 40] 0)
     = AssertFail "vec_remove_swap_at_with out of bounds" ∧
   vec_remove_shift_at_with (-1) Z.succ (vec_of 32 4 [10; 20; 30; 40] 0)
     = AssertFail "vec_remove_swap_at_with out of bounds").
Proof.
  assert (vec_len (vec_of 32 4 [10; 20; 30; 40] 0)
          = Ret (4, vec_of 32 4 [10; 20; 30; 40] 0)) as Hlen by concrete.
  assert (4 ≤ wrap (-1)) as Hi by concrete.
  split; [by split|].
  exact (index_out_of_bounds_aborts _ 4 (-1) Z.succ Hlen Hi).
Defined.

Lemma push_pop_restores_witness :
  (vec_ok boot ∧ vec_push 7 true boot = Ret (tt, vec_of 20 1 [7] 0)) ∧
  ∃ s2 l c, vec_pop (vec_of 20 1 [7] 0) = Ret (tt, s2) ∧
            vec_len boot = Ret (l, boot) ∧
            vec_len s2 = Ret (l, s2) ∧
            snapshot s2 = snapshot boot ∧
            vec_cap (vec_of 20 1 [7] 0) = Ret (c, vec_of 20 1 [7] 0) ∧
            vec_cap s2 = Ret (c, s2) ∧
            0 < c ∧
            vec s2 = vec (vec_of 20 1 [7] 0) ∧ vec s2 ≠ None.
Proof.
  assert (vec_ok boot) as Hok by (left; reflexivity).
  assert (vec_push 7 true boot = Ret (tt, vec_of 20 1 [7] 0)) as Hpush
    by concrete.
  split; [by split|].
  exact (push_pop_restores 7 true boot _ Hok Hpush).
Defined.

Lemma clear_keeps_capacity_witness :
  vec_ok (vec_of 32 4 [10; 20; 30] 0) ∧
  ∃ s' c, vec_clear (vec_of 32 4 [10; 20; 30] 0) = Ret (tt, s') ∧
          vec s' = vec (vec_of 32 4 [10; 20; 30] 0) ∧
          vec_cap (vec_of 32 4 [10; 20; 30] 0)
            = Ret (c, vec_of 32 4 [10; 20; 30] 0) ∧
          vec_cap s' = Ret (c, s') ∧
          vec_len s' = Ret (0, s') ∧
          snapshot s' = [] ∧
          (vec (vec_of 32 4 [10; 20; 30] 0) = None →
           s' = vec_of 32 4 [10; 20; 30] 0) ∧
          vec_clear s' = Ret (tt, s').
Proof.
  assert (vec_ok (vec_of 32 4 [10; 20; 30] 0)) as Hok.
  { right. exists 1%positive, (block_of 32 4 [10; 20; 30]).
    repeat split; concrete. }
  split; [exact Hok|].
  exact (clear_keeps_capacity _ Hok).
Defined.

Lemma push_within_capacity_witness :
  (allocated (vec_of 32 4 [10; 20; 30] 0) 1%positive (block_of 32 4 [10; 20; 30]) ∧
   block_ok (block_of 32 4 [10; 20; 30]) ∧
   backed (block_of 32 4 [10; 20; 30]) ∧
   hdr_len (block_of 32 4 [10; 20; 30]) + Z.of_nat (length [(40, false)])
     ≤ hdr_cap (block_of 32 4 [10; 20; 30])) ∧
  ∃ s', push_all [(40, false)] (vec_of 32 4 [10; 20; 30] 0) = Ret (tt, s') ∧
        vec s' = Some 1%positive ∧
        dom (heap s') = dom (heap (vec_of 32 4 [10; 20; 30] 0)) ∧
        errno s' = errno (vec_of 32 4 [10; 20; 30] 0) ∧
        vec_cap s' = Ret (hdr_cap (block_of 32 4 [10; 20; 30]), s') ∧
        vec_len s' = Ret (hdr_len (block_of 32 4 [10; 20; 30])
                          + Z.of_nat (length [(40, false)]), s') ∧
        snapshot s' = snapshot (vec_of 32 4 [10; 20; 30] 0)
                      ++ (Some <$> [(40, false)].*1).
Proof.
  assert (allocated (vec_of 32 4 [10; 20; 30] 0) 1%positive
                    (block_of 32 4 [10; 20; 30])) as Ha
    by (repeat split; concrete).
  assert (block_ok (block_of 32 4 [10; 20; 30])) as Hb
    by (repeat split; concrete).
  assert (backed (block_of 32 4 [10; 20; 30])) as Hbk by concrete.
  assert (hdr_len (block_of 32 4 [10; 20; 30]) + Z.of_nat (length [(40, false)])
          ≤ hdr_cap (block_of 32 4 [10; 20; 30])) as Hn by concrete.
  split; [by split_and!|].
  exact (push_within_capacity [(40, false)] _ _ _ Ha Hb Hbk Hn).
Defined.

Lemma reserve_then_push_witness :
  (0 < 4 ∧
   sizeof_header + sizeof_T * 4 < 2 ^ size_bits ∧
   Z.of_nat (length [(10, false); (20, false); (30, false)]) ≤ 4) ∧
  ∃ s h b,
    (vec_init ;; vec_reserve 4 true ;;
     push_all [(10, false); (20, false); (30, false)]) boot = Ret (tt, s) ∧
    heap boot !! h = None ∧
    s = State (Some h) (<[h := b]> (heap boot)) (errno boot) ∧
    vec_cap s = Ret (4, s) ∧
    vec_len s = Ret (Z.of_nat (length [(10, false); (20, false); (30, false)]), s) ∧
    snapshot s = Some <$> [(10, false); (20, false); (30, false)].*1.
Proof.
  assert (0 < 4) as HK by lia.
  assert (sizeof_header + sizeof_T * 4 < 2 ^ size_bits) as Hfit by concrete.
  assert (Z.of_nat (length [(10, false); (20, false); (30, false)]) ≤ 4) as Hn
    by concrete.
  split; [by split_and!|].
  exact (reserve_then_push 4 [(10, false); (20, false); (30, false)] boot
           HK Hfit Hn).
Defined.

Lemma clear_then_refill_witness :
  (allocated (vec_of 32 4 [10; 20; 30] 0) 1%positive (block_of 32 4 [10; 20; 30]) ∧
   block_ok (block_of 32 4 [10; 20; 30]) ∧
   backed (block_of 32 4 [10; 20; 30]) ∧
   Z.of_nat (length [(1, false); (2, false)])
     ≤ hdr_cap (block_of 32 4 [10; 20; 30])) ∧
  ∃ s', (vec_clear ;; push_all [(1, false); (2, false)])
          (vec_of 32 4 [10; 20; 30] 0) = Ret (tt, s') ∧
        vec s' = Some 1%positive ∧
        dom (heap s') = dom (heap (vec_of 32 4 [10; 20; 30] 0)) ∧
        vec_cap s' = Ret (hdr_cap (block_of 32 4 [10; 20; 30]), s') ∧
        vec_len s' = Ret (Z.of_nat (length [(1, false); (2, false)]), s') ∧
        snapshot s' = Some <$> [(1, false); (2, false)].*1.
Proof.
  assert (allocated (vec_of 32 4 [10; 20; 30] 0) 1%positive
                    (block_of 32 4 [10; 20; 30])) as Ha
    by (repeat split; concrete).
  assert (block_ok (block_of 32 4 [10; 20; 30])) as Hb
    by (repeat split; concrete).
  assert (backed (block_of 32 4 [10; 20; 30])) as Hbk by concrete.
  assert (Z.of_nat (length [(1, false); (2, false)])
          ≤ hdr_cap (block_of 32 4 [10; 20; 30])) as Hn by concrete.
  split; [by split_and!|].
  exact (clear_then_refill [(1, false); (2, false)] _ _ _ Ha Hb Hbk Hn).
Defined.

Lemma clear_with_destroys_each_witness :
  (allocated (vec_of 32 4 [10; 20; 30] 0) 1%positive (block_of 32 4 [10; 20; 30]) ∧
   0 ≤ hdr_len (block_of 32 4 [10; 20; 30]) ∧
   stored (block_of 32 4 [10; 20; 30])) ∧
  ∃ s' b', vec_clear_with Z.opp (vec_of 32 4 [10; 20; 30] 0) = Ret (tt, s') ∧
           allocated s' 1%positive b' ∧
           dom (heap s') = dom (heap (vec_of 32 4 [10; 20; 30] 0)) ∧
           errno s' = errno (vec_of 32 4 [10; 20; 30] 0) ∧
           blk_size b' = blk_size (block_of 32 4 [10; 20; 30]) ∧
           vec_len s' = Ret (0, s') ∧
           vec_cap s' = Ret (hdr_cap (block_of 32 4 [10; 20; 30]), s') ∧
           ∀ j, elems b' !! j =
                if decide (0 ≤ j < hdr_len (block_of 32 4 [10; 20; 30]))
                then Z.opp <$> elems (block_of 32 4 [10; 20; 30]) !! j
                else elems (block_of 32 4 [10; 20; 30]) !! j.
Proof.
  assert (allocated (vec_of 32 4 [10; 20; 30] 0) 1%positive
                    (block_of 32 4 [10; 20; 30])) as Ha
    by (repeat split; concrete).
  assert (0 ≤ hdr_len (block_of 32 4 [10; 20; 30])) as Hl by concrete.
  assert (stored (block_of 32 4 [10; 20; 30])) as Hst by concrete.
  split; [by split_and!|].
  exact (clear_with_destroys_each Z.opp _ _ _ Ha Hl Hst).
Defined.

Lemma swap_remove_with_destroys_one_witness :
  (allocated (vec_of 32 4 [10; 20; 30; 40] 0) 1%positive
             (block_of 32 4 [10; 20; 30; 40]) ∧
   block_ok (block_of 32 4 [10; 20; 30; 40]) ∧
   stored (block_of 32 4 [10; 20; 30; 40]) ∧
   0 ≤ 1 < hdr_len (block_of 32 4 [10; 20; 30; 40])) ∧
  ∃ s', vec_remove_swap_at_with 1 Z.opp (vec_of 32 4 [10; 20; 30; 40] 0)
          = Ret (tt, s') ∧
        (call_deinit Z.opp 1%positive 1 ;; vec_remove_swap_at 1)
          (vec_of 32 4 [10; 20; 30; 40] 0) = Ret (tt, s') ∧
        vec_len s' = Ret (hdr_len (block_of 32 4 [10; 20; 30; 40]) - 1, s') ∧
        vec_cap s' = Ret (hdr_cap (block_of 32 4 [10; 20; 30; 40]), s') ∧
        snapshot s' =
          <[Z.to_nat 1 := elems (block_of 32 4 [10; 20; 30; 40])
                            !! (hdr_len (block_of 32 4 [10; 20; 30; 40]) - 1)]>
            (take (Z.to_nat (hdr_len (block_of 32 4 [10; 20; 30; 40]) - 1))
                  (snapshot (vec_of 32 4 [10; 20; 30; 40] 0))) ∧
        vec_at (hdr_len (block_of 32 4 [10; 20; 30; 40]) - 1) s'
        = Ret (if decide (1 = hdr_len (block_of 32 4 [10; 20; 30; 40]) - 1)
               then Z.opp <$> elems (block_of 32 4 [10; 20; 30; 40]) !! 1
               else elems (block_of 32 4 [10; 20; 30; 40])
                      !! (hdr_len (block_of 32 4 [10; 20; 30; 40]) - 1), s').
Proof.
  assert (allocated (vec_of 32 4 [10; 20; 30; 40] 0) 1%positive
                    (block_of 32 4 [10; 20; 30; 40])) as Ha
    by (repeat split; concrete).
  assert (block_ok (block_of 32 4 [10; 20; 30; 40])) as Hb
    by (repeat split; concrete).
  assert (stored (block_of 32 4 [10; 20; 30; 40])) as Hst by concrete.
  assert (0 ≤ 1 < hdr_len (block_of 32 4 [10; 20; 30; 40])) as Hi
    by (split; concrete).
  split; [by split_and!|].
  exact (swap_remove_with_destroys_one 1 Z.opp _ _ _ Ha Hb Hst Hi).
Defined.

Lemma shift_remove_with_destroys_one_witness :
  (allocated (vec_of 32 4 [10; 20; 30; 40] 0) 1%positive
             (block_of 32 4 [10; 20; 30; 40]) ∧
   block_ok (block_of 32 4 [10; 20; 30; 40]) ∧
   stored (block_of 32 4 [10; 20; 30; 40]) ∧
   0 ≤ 1 < hdr_len (block_of 32 4 [10; 20; 30; 40])) ∧
  ∃ s', vec_remove_shift_at_with 1 Z.opp (vec_of 32 4 [10; 20; 30; 40] 0)
          = Ret (tt, s') ∧
        (call_deinit Z.opp 1%positive 1 ;; vec_remove_shift_at 1)
          (vec_of 32 4 [10; 20; 30; 40] 0) = Ret (tt, s') ∧
        vec_len s' = Ret (hdr_len (block_of 32 4 [10; 20; 30; 40]) - 1, s') ∧
        vec_cap s' = Ret (hdr_cap (block_of 32 4 [10; 20; 30; 40]), s') ∧
        snapshot s' = delete (Z.to_nat 1) (snapshot (vec_of 32 4 [10; 20; 30; 40] 0)).
Proof.
  assert (allocated (vec_of 32 4 [10; 20; 30; 40] 0) 1%positive
                    (block_of 32 4 [10; 20; 30; 40])) as Ha
    by (repeat split; concrete).
  assert (block_ok (block_of 32 4 [10; 20; 30; 40])) as Hb
    by (repeat split; concrete).
  assert (stored (block_of 32 4 [10; 20; 30; 40])) as Hst by concrete.
  assert (0 ≤ 1 < hdr_len (block_of 32 4 [10; 20; 30; 40])) as Hi
    by (split; concrete).
  split; [by split_and!|].
  exact (shift_remove_with_destroys_one 1 Z.opp _ _ _ Ha Hb Hst Hi).
Defined.

Lemma empty_runs_no_body_witness :
  (vec_ok cleared ∧ vec_len cleared = Ret (0, cleared)) ∧
  (vec_for_each_index 1 stop_body cleared = Ret (true, cleared) ∧
   vec_for_each 1 (λ p, stop_body p 0) cleared = Ret (true, cleared) ∧
   vec_clear_with Z.opp cleared = Ret (tt, cleared) ∧
   vec_pop cleared = AssertFail "vec_pop empty").
Proof.
  assert (vec_ok cleared) as Hok.
  { right. exists 1%positive, (Block 48 0 8 (list_to_map [(0, 1); (1, 2)])).
    repeat split; concrete. }
  assert (vec_len cleared = Ret (0, cleared)) as Hlen by concrete.
  split; [by split|].
  exact (empty_runs_no_body 0 stop_body (λ p, stop_body p 0) Z.opp _ Hok Hlen).
Defined.

Lemma for_each_visits_in_order_witness :
  (allocated (vec_of 32 4 [10; 20; 30] 0) 1%positive (block_of 32 4 [10; 20; 30]) ∧
   0 ≤ hdr_len (block_of 32 4 [10; 20; 30]) ∧
   stored (block_of 32 4 [10; 20; 30]) ∧
   blk_size (block_of 32 4 [10; 20; 30]) < 2 ^ size_bits ∧
   keeps_header 1%positive (blk_size (block_of 32 4 [10; 20; 30]))
                (hdr_len (block_of 32 4 [10; 20; 30]))
                (λ value_ptr _, update_at Z.succ value_ptr) ∧
   lt (Z.to_nat (hdr_len (block_of 32 4 [10; 20; 30]))) 4) ∧
  vec_for_each_index 4 (λ value_ptr _, update_at Z.succ value_ptr)
                     (vec_of 32 4 [10; 20; 30] 0) =
    (for_each (λ i, update_at Z.succ (SlotRef 1%positive i))
              (seqZ 0 (hdr_len (block_of 32 4 [10; 20; 30]))) ;; ret true)
      (vec_of 32 4 [10; 20; 30] 0).
Proof.
  assert (allocated (vec_of 32 4 [10; 20; 30] 0) 1%positive
                    (block_of 32 4 [10; 20; 30])) as Ha
    by (repeat split; concrete).
  assert (0 ≤ hdr_len (block_of 32 4 [10; 20; 30])) as Hl by concrete.
  assert (stored (block_of 32 4 [10; 20; 30])) as Hst by concrete.
  assert (blk_size (block_of 32 4 [10; 20; 30]) < 2 ^ size_bits) as Hsz
    by concrete.
  assert (keeps_header 1%positive (blk_size (block_of 32 4 [10; 20; 30]))
                       (hdr_len (block_of 32 4 [10; 20; 30]))
                       (λ value_ptr _, update_at Z.succ value_ptr)) as Hkeep
    by apply update_keeps_header.
  assert (lt (Z.to_nat (hdr_len (block_of 32 4 [10; 20; 30]))) 4) as Hfuel
    by (vm_compute; lia).
  split; [by split_and!|].
  exact (for_each_visits_in_order 4 _ _ _ _ Ha Hl Hst Hsz Hkeep Hfuel).
Defined.

Lemma for_each_updates_every_element_witness :
  (allocated (vec_of 32 4 [10; 20; 30] 0) 1%positive (block_of 32 4 [10; 20; 30]) ∧
   0 ≤ hdr_len (block_of 32 4 [10; 20; 30]) ∧
   stored (block_of 32 4 [10; 20; 30]) ∧
   blk_size (block_of 32 4 [10; 20; 30]) < 2 ^ size_bits ∧
   lt (Z.to_nat (hdr_len (block_of 32 4 [10; 20; 30]))) 4) ∧
  ∃ s', vec_for_each 4 (update_at Z.succ) (vec_of 32 4 [10; 20; 30] 0)
          = Ret (true, s') ∧
        vec_len s' = Ret (hdr_len (block_of 32 4 [10; 20; 30]), s') ∧
        vec_cap s' = Ret (hdr_cap (block_of 32 4 [10; 20; 30]), s') ∧
        snapshot s' = (λ x : option Z, Z.succ <$> x)
                        <$> snapshot (vec_of 32 4 [10; 20; 30] 0).
Proof.
  assert (allocated (vec_of 32 4 [10; 20; 30] 0) 1%positive
                    (block_of 32 4 [10; 20; 30])) as Ha
    by (repeat split; concrete).
  assert (0 ≤ hdr_len (block_of 32 4 [10; 20; 30])) as Hl by concrete.
  assert (stored (block_of 32 4 [10; 20; 30])) as Hst by concrete.
  assert (blk_size (block_of 32 4 [10; 20; 30]) < 2 ^ size_bits) as Hsz
    by concrete.
  assert (lt (Z.to_nat (hdr_len (block_of 32 4 [10; 20; 30]))) 4) as Hfuel
    by (vm_compute; lia).
  split; [by split_and!|].
  exact (for_each_updates_every_element 4 Z.succ _ _ _ Ha Hl Hst Hsz Hfuel).
Defined.

Lemma heap_discipline_witness :
  ((OpInit ∉ [OpPush 10 true; OpPush 20 true; OpPush 30 true; OpPop;
              OpRemoveShiftAt 0; OpTryReserve 8 true]) ∧
   run (OpInit :: [OpPush 10 true; OpPush 20 true; OpPush 30 true; OpPop;
                   OpRemoveShiftAt 0; OpTryReserve 8 true]) busy
     = Ret (tt, busy_vec)) ∧
  ((∀ p b, heap busy !! p = Some b → heap busy_vec !! p = Some b) ∧
   (vec busy_vec = None → heap busy_vec = heap busy) ∧
   (∀ h, vec busy_vec = Some h →
         heap busy !! h = None ∧ delete h (heap busy_vec) = heap busy) ∧
   (∀ s', vec_deinit busy_vec = Ret (tt, s') → heap s' = heap busy)).
Proof.
  assert (OpInit ∉ [OpPush 10 true; OpPush 20 true; OpPush 30 true; OpPop;
                    OpRemoveShiftAt 0; OpTryReserve 8 true]) as Hinit.
  { intros Hin.
    repeat (apply elem_of_cons in Hin as [Hin|Hin]; [discriminate Hin|]).
    by apply elem_of_nil in Hin. }
  assert (run (OpInit :: [OpPush 10 true; OpPush 20 true; OpPush 30 true; OpPop;
                          OpRemoveShiftAt 0; OpTryReserve 8 true]) busy
          = Ret (tt, busy_vec)) as Hrun by concrete.
  split; [by split|].
  exact (heap_discipline _ busy busy_vec Hinit Hrun).
Defined.

Lemma remove_last_is_pop_witness :
  (allocated (vec_of 32 4 [10; 20; 30] 0) 1%positive (block_of 32 4 [10; 20; 30]) ∧
   block_ok (block_of 32 4 [10; 20; 30]) ∧
   stored (block_of 32 4 [10; 20; 30]) ∧
   0 < hdr_len (block_of 32 4 [10; 20; 30])) ∧
  (vec_remove_swap_at (hdr_len (block_of 32 4 [10; 20; 30]) - 1)
                      (vec_of 32 4 [10; 20; 30] 0)
     = vec_pop (vec_of 32 4 [10; 20; 30] 0) ∧
   vec_remove_shift_at (hdr_len (block_of 32 4 [10; 20; 30]) - 1)
                       (vec_of 32 4 [10; 20; 30] 0)
     = vec_pop (vec_of 32 4 [10; 20; 30] 0) ∧
   ∃ s', vec_pop (vec_of 32 4 [10; 20; 30] 0) = Ret (tt, s')).
Proof.
  assert (allocated (vec_of 32 4 [10; 20; 30] 0) 1%positive
                    (block_of 32 4 [10; 20; 30])) as Ha
    by (repeat split; concrete).
  assert (block_ok (block_of 32 4 [10; 20; 30])) as Hb
    by (repeat split; concrete).
  assert (stored (block_of 32 4 [10; 20; 30])) as Hst by concrete.
  assert (0 < hdr_len (block_of 32 4 [10; 20; 30])) as Hpos by concrete.
  split; [by split_and!|].
  exact (remove_last_is_pop _ _ _ Ha Hb Hst Hpos).
Defined.

Lemma emplace_then_write_is_push_witness :
  vec_emplace false (vec_of 32 4 [10; 20; 30] 0)
    = Ret (SlotRef 1%positive 3, emplaced) ∧
  (store_ref (SlotRef 1%positive 3) (Some 40) emplaced
     = vec_push 40 false (vec_of 32 4 [10; 20; 30] 0) ∧
   ∃ h l, SlotRef 1%positive 3 = SlotRef h (l - 1) ∧ 0 < l ∧
          vec emplaced = Some h ∧ vec_len emplaced = Ret (l, emplaced)).
Proof.
  assert (vec_emplace false (vec_of 32 4 [10; 20; 30] 0)
          = Ret (SlotRef 1%positive 3, emplaced)) as Hrun by concrete.
  split; [exact Hrun|].
  exact (emplace_then_write_is_push 40 false _ _ _ Hrun).
Defined.

(** The same runs, evaluated. *)
Example pop_example :
  exec vec_pop (vec_of 32 4 [10; 20; 30] 0)
    = Some (State (Some 1%positive)
                  {[1%positive := Block 32 2 4 (elems (block_of 32 4 [10; 20; 30]))]} 0).
Proof. concrete. Qed.

Example for_each_example :
  snapshot <$> exec (vec_for_each 4 (update_at Z.succ)) (vec_of 32 4 [10; 20; 30] 0)
    = Some [Some 11; Some 21; Some 31].
Proof. concrete. Qed.

Example clear_with_example :
  exec (vec_clear_with Z.opp ;; push_all [(1, false)]) (vec_of 32 4 [10; 20; 30] 0)
    = Some (State (Some 1%positive)
                  {[1%positive :=
                      Block 32 1 4 (list_to_map [(0, 1); (1, -20); (2, -30)])]} 0).
Proof. concrete. Qed.

End Lp64IntOperations.
